(** * Session hub of package [websocket]: a shallow embedding.

    The development follows the session source of the package: the subject
    matcher, the session registry ([pool]), the per-session control loop
    ([serve]) with its handlers, and the ingress listener ([listening]).

    Go values are modelled as follows.
    - [string], [subject], [sessionID]: byte strings ([string]).
    - [map[subject]bool], [map[sessionID]struct{}]: [gmap].
    - a channel: its capacity, its buffered elements and its closed flag; a
      send on a closed channel and a second close are run-time panics, a send
      on a full channel parks the goroutine.
    - [pb.Method]: the [int32] of the protobuf enumeration, as [Z].
    - [time.Duration]: the [int64] count of nanoseconds, as [Z].
    - the two goroutines of a session interleave turn by turn; the mutexes
      and the log lines change nothing that a turn observes and are left
      out. *)

From Stdlib Require Import Ascii.
From stdpp Require Import gmap strings list fin_maps pretty.

(** ** Package [strings] *)

(** [strings.HasPrefix]: [len(s) >= len(prefix) && s[:len(prefix)] == prefix]. *)
Definition HasPrefix (s prefix : string) : bool :=
  (String.length prefix <=? String.length s)%nat
  && String.eqb (String.substring 0 (String.length prefix) s) prefix.

(** [strings.HasSuffix]:
    [len(s) >= len(suffix) && s[len(s)-len(suffix):] == suffix]. *)
Definition HasSuffix (s suffix : string) : bool :=
  (String.length suffix <=? String.length s)%nat
  && String.eqb
       (String.substring (String.length s - String.length suffix)
          (String.length suffix) s)
       suffix.

(** [strings.TrimSuffix]: [s] without the trailing [suffix], or [s] itself. *)
Definition TrimSuffix (s suffix : string) : string :=
  if HasSuffix s suffix
  then String.substring 0 (String.length s - String.length suffix) s
  else s.

(** ** Subjects *)

Abbreviation subject := string (only parsing).
Abbreviation sessionID := string (only parsing).

(** [subject.verify] *)
Definition verify (sub tar : subject) : bool :=
  if String.eqb sub "*" then true
  else if String.eqb sub tar then true
  else if HasSuffix sub "*" then
    let prefix := TrimSuffix sub "*" in
    HasPrefix tar prefix
  else false.

(** ** Wire messages

    The message structs and the [pb.Method] enumeration are declared outside
    the session source; their fields are the ones the session code reads and
    writes. *)

Abbreviation Method := Z (only parsing).

(** Modelled from the spec: the values of the [pb.Method] enumeration
    (package [pb] is absent), [0:PING, 1:SUBSCRIBE, 2:UNSUBSCRIBE,
    3:DISCONNECT, 4:BROADCAST]. *)
Definition Method_PING : Method := 0.
Definition Method_SUBSCRIBE : Method := 1.
Definition Method_UNSUBSCRIBE : Method := 2.
Definition Method_DISCONNECT : Method := 3.
Definition Method_BROADCAST : Method := 4.

(** [net/http] status codes and [http.StatusText]. *)
Definition StatusOK : Z := 200.
Definition StatusBadRequest : Z := 400.
Definition StatusText_OK : string := "OK".

(** [gorilla/websocket] close codes. *)
Definition CloseNormalClosure : Z := 1000.
Definition CloseNoStatusReceived : Z := 1005.

Definition defaultDateFormat : string := "2006-01-02 15:04:05.000".

(** [json.RawMessage]: the undecoded bytes of [params]. *)
Abbreviation RawMessage := string (only parsing).

Record WebSocketRequest := mkRequest {
  req_ID : sessionID;
  req_Method : Method;
  req_Params : option RawMessage    (* [*json.RawMessage], [None] is nil *)
}.

Record WebSocketBroadcast := mkBroadcast {
  ev_Subject : subject;
  ev_Time : Z;
  ev_Data : string
}.

(** The [interface{}] carried by a response: nothing, an instant printed with
    a layout, the list of topics, or a broadcast event. *)
Inductive payload :=
| DataNil
| DataTime (layout : string) (instant : Z)
| DataTopics (topics : list subject)
| DataEvent (event : WebSocketBroadcast).

Record WebSocketResponse := mkResponse {
  resp_ID : sessionID;
  resp_Code : Z;
  resp_Message : string;
  resp_Method : Method;
  resp_Data : payload
}.

(** An [error] returned by [ReadJSON]: a [*websocket.CloseError] with its
    code, or any other error; both print as some text. *)
Inductive go_error :=
| CloseError (code : Z) (text : string)
| OtherError (text : string).

Definition Error (e : go_error) : string :=
  match e with CloseError _ t => t | OtherError t => t end.

(** ** Channels *)

Record chan (A : Type) := mkChan {
  ch_cap : nat;
  ch_buf : list A;
  ch_closed : bool
}.
Arguments mkChan {A} _ _ _.
Arguments ch_cap {A} _.
Arguments ch_buf {A} _.
Arguments ch_closed {A} _.

Inductive send_result (A : Type) :=
| Sent (c : chan A)
| Full
| SendClosed.
Arguments Sent {A} _.
Arguments Full {A}.
Arguments SendClosed {A}.

(** [c <- v] *)
Definition chan_send {A} (c : chan A) (v : A) : send_result A :=
  if ch_closed c then SendClosed
  else if (length (ch_buf c) <? ch_cap c)%nat
       then Sent (mkChan (ch_cap c) (ch_buf c ++ [v]) false)
       else Full.

(** [v, ok := <-c], when the receive can proceed: the oldest element, or the
    zero value with [ok = false] once the channel is closed and drained. *)
Definition chan_recv {A} (c : chan A) : option (option A * chan A) :=
  match ch_buf c with
  | v :: rest => Some (Some v, mkChan (ch_cap c) rest (ch_closed c))
  | [] => if ch_closed c then Some (None, c) else None
  end.

(** [close(c)]; [None] is the panic of closing a closed channel. *)
Definition chan_close {A} (c : chan A) : option (chan A) :=
  if ch_closed c then None else Some (mkChan (ch_cap c) (ch_buf c) true).

(** A send can complete at once. *)
Definition can_send {A} (c : chan A) : Prop :=
  ch_closed c = false ∧ (length (ch_buf c) < ch_cap c)%nat.

Definition pushed {A} (c : chan A) (v : A) : chan A :=
  mkChan (ch_cap c) (ch_buf c ++ [v]) false.

(** ** The transport

    The [*websocket.Conn] of a session: the frames written so far and whether
    [Close] was called. *)
Record transport := mkTransport {
  tr_written : list WebSocketResponse;
  tr_closed : bool
}.

(** ** Session and registry state *)

Record session := mkSession {
  sess_id : sessionID;
  subscriptions : gmap subject bool;
  request : chan WebSocketRequest;
  response : chan WebSocketResponse;
  broadcast : chan WebSocketBroadcast;
  conn : bool;                      (* [session.conn != nil] *)
  heartbeat : Z;                    (* [session.opts.heartbeat] *)
  once : bool;                      (* [sync.Once] has run *)
  ready : bool;
  closed : bool;
  closing : chan unit
}.

(** What the code of one session reads and writes: the session, the global
    [store] and the session's connection. *)
Record world := mkWorld {
  sess : session;
  store : gmap sessionID unit;
  wire : transport
}.

Definition set_subscriptions (m : gmap subject bool) (s : session) : session :=
  mkSession (sess_id s) m (request s) (response s) (broadcast s) (conn s)
    (heartbeat s) (once s) (ready s) (closed s) (closing s).
Definition set_request (c : chan WebSocketRequest) (s : session) : session :=
  mkSession (sess_id s) (subscriptions s) c (response s) (broadcast s) (conn s)
    (heartbeat s) (once s) (ready s) (closed s) (closing s).
Definition set_response (c : chan WebSocketResponse) (s : session) : session :=
  mkSession (sess_id s) (subscriptions s) (request s) c (broadcast s) (conn s)
    (heartbeat s) (once s) (ready s) (closed s) (closing s).
Definition set_broadcast (c : chan WebSocketBroadcast) (s : session) : session :=
  mkSession (sess_id s) (subscriptions s) (request s) (response s) c (conn s)
    (heartbeat s) (once s) (ready s) (closed s) (closing s).
Definition set_conn (b : bool) (s : session) : session :=
  mkSession (sess_id s) (subscriptions s) (request s) (response s) (broadcast s) b
    (heartbeat s) (once s) (ready s) (closed s) (closing s).
Definition set_once (b : bool) (s : session) : session :=
  mkSession (sess_id s) (subscriptions s) (request s) (response s) (broadcast s)
    (conn s) (heartbeat s) b (ready s) (closed s) (closing s).
Definition set_ready (b : bool) (s : session) : session :=
  mkSession (sess_id s) (subscriptions s) (request s) (response s) (broadcast s)
    (conn s) (heartbeat s) (once s) b (closed s) (closing s).
Definition set_closed (b : bool) (s : session) : session :=
  mkSession (sess_id s) (subscriptions s) (request s) (response s) (broadcast s)
    (conn s) (heartbeat s) (once s) (ready s) b (closing s).
Definition set_closing (c : chan unit) (s : session) : session :=
  mkSession (sess_id s) (subscriptions s) (request s) (response s) (broadcast s)
    (conn s) (heartbeat s) (once s) (ready s) (closed s) c.

Definition upd_sess (f : session → session) (w : world) : world :=
  mkWorld (f (sess w)) (store w) (wire w).
Definition set_store (m : gmap sessionID unit) (w : world) : world :=
  mkWorld (sess w) m (wire w).
Definition set_wire (t : transport) (w : world) : world :=
  mkWorld (sess w) (store w) t.

(** ** Outcomes of running code

    A call returns ([Done]), parks its goroutine on a channel operation that
    cannot proceed ([Parked]), or panics ([Panic]); the last two keep the
    state reached at that point. *)
Inductive fault := SendOnClosedChannel | CloseOfClosedChannel | NilDereference.

Inductive outcome (A : Type) :=
| Done (a : A) (w : world)
| Parked (w : world)
| Panic (f : fault) (w : world).
Arguments Done {A} _ _.
Arguments Parked {A} _.
Arguments Panic {A} _ _.

Definition M (A : Type) : Type := world → outcome A.

Definition ret {A} (a : A) : M A := λ w, Done a w.

Definition bind {A B} (m : M A) (k : A → M B) : M B :=
  λ w, match m w with
       | Done a w' => k a w'
       | Parked w' => Parked w'
       | Panic f w' => Panic f w'
       end.

Notation "x <- m ;; k" := (bind m (λ x, k))
  (at level 100, m at next level, right associativity, only parsing).
Notation "m ;;; k" := (bind m (λ _, k))
  (at level 100, right associativity, only parsing).

Definition gets {A} (f : world → A) : M A := λ w, Done (f w) w.
Definition modify (f : world → world) : M unit := λ w, Done tt (f w).
Definition panic {A} (f : fault) : M A := λ w, Panic f w.

(** The world an outcome stopped in. *)
Definition final {A} (o : outcome A) : world :=
  match o with Done _ w => w | Parked w => w | Panic _ w => w end.

(** ** The session registry ([pool]) *)

(** [pool.verifySession] *)
Definition verifySession (id : sessionID) (p : gmap sessionID unit) : bool :=
  match p !! id with Some _ => true | None => false end.

(** [pool.createSession]; [uuid] is the string of [uuid.New()]. *)
Definition createSession (uuid : string) (p : gmap sessionID unit)
  : sessionID * gmap sessionID unit :=
  let id := uuid in
  (id, <[id := tt]> p).

(** [pool.dropSession] *)
Definition dropSession (id : sessionID) (p : gmap sessionID unit)
  : gmap sessionID unit :=
  delete id p.

(** ** Package [redis]: options

    [time.Duration] arithmetic is [int64] arithmetic. *)

Definition wrap64 (z : Z) : Z :=
  ((z + 2 ^ 63) `mod` 2 ^ 64 - 2 ^ 63)%Z.

Definition Second : Z := 1000000000.

(** [RandomExpiry]: [time.Duration(rand.Intn(86400)) * time.Second], where
    [n] is the result of [rand.Intn(86400)]. *)
Definition RandomExpiry (n : Z) : Z := wrap64 (n * Second).


(** A [context.Context], as far as the options go. *)
Inductive context := Background | OtherContext (tag : nat).










(** ** What the Go runtime and [encoding/json] decide

    [json.Unmarshal] into a [[]subject] yields an error (its text) or the
    decoded subjects.  [range] over a map visits every key once, in an order
    the language leaves open: [range_order] is any such order. *)
Class GoRuntime := {
  json_Unmarshal : RawMessage → string + list subject;
  range_order : gmap subject bool → list subject;
  range_order_perm : ∀ m, range_order m ≡ₚ elements (dom m)
}.

Section Hub.
Context `{RT : GoRuntime}.

(** ** Channel operations of a session *)

Definition send {A} (get : session → chan A)
    (set : chan A → session → session) (v : A) : M unit :=
  λ w, match chan_send (get (sess w)) v with
       | Sent c => Done tt (upd_sess (set c) w)
       | Full => Parked w
       | SendClosed => Panic SendOnClosedChannel w
       end.

(** A receive chosen by [select]; it parks when the case is not ready. *)
Definition recv {A} (get : session → chan A)
    (set : chan A → session → session) : M (option A) :=
  λ w, match chan_recv (get (sess w)) with
       | Some (v, c) => Done v (upd_sess (set c) w)
       | None => Parked w
       end.

Definition close_chan {A} (get : session → chan A)
    (set : chan A → session → session) : M unit :=
  λ w, match chan_close (get (sess w)) with
       | Some c => Done tt (upd_sess (set c) w)
       | None => Panic CloseOfClosedChannel w
       end.

(** ** Responses *)

(** [session.normal] *)
Definition normal (method : Method) (data : payload) : M unit :=
  id <- gets (λ w, sess_id (sess w));;
  send response set_response
    (mkResponse id StatusOK StatusText_OK method data).

(** [session.error]; the [Method] and [Data] fields keep their zero values. *)
Definition error (errCode : Z) (errMsg : string) : M unit :=
  id <- gets (λ w, sess_id (sess w));;
  send response set_response (mkResponse id errCode errMsg 0 DataNil).

(** [session.close] *)
Definition close : M unit := send closing set_closing tt.

(** ** Handlers of the control loop *)

(** [session.ping]; [now] is [time.Now()]. *)
Definition ping (now : Z) : M unit :=
  c <- gets (λ w, closed (sess w));;
  if negb c then
    modify (upd_sess (set_ready true));;;
    normal Method_PING (DataTime defaultDateFormat now)
  else ret tt.

(** [conn.WriteJSON]: the frame goes out unless the connection was closed. *)
Definition WriteJSON (v : WebSocketResponse) : M (option string) :=
  c <- gets (λ w, conn (sess w));;
  if c then
    t <- gets wire;;
    if tr_closed t then ret (Some "use of closed network connection")
    else
      modify (set_wire (mkTransport (tr_written t ++ [v]) false));;;
      ret None
  else panic NilDereference.

(** [v.ID = session.id] *)
Definition stamped (id : sessionID) (v : WebSocketResponse) : WebSocketResponse :=
  mkResponse id (resp_Code v) (resp_Message v) (resp_Method v) (resp_Data v).

(** [session.write]; the result is the returned [error], [None] for nil. *)
Definition write (v : WebSocketResponse) : M (option string) :=
  r <- gets (λ w, ready (sess w));;
  if r then
    id <- gets (λ w, sess_id (sess w));;
    WriteJSON (stamped id v)
  else ret None.

(** The loop of [session.event] over the keys still to visit. *)
Fixpoint event_range (keys : list subject) (event : WebSocketBroadcast)
  : M unit :=
  match keys with
  | [] => ret tt
  | subject :: rest =>
      if verify subject (ev_Subject event)
      then normal Method_BROADCAST (DataEvent event)    (* then [break] *)
      else event_range rest event
  end.

(** [session.event] *)
Definition event (event : WebSocketBroadcast) : M unit :=
  r <- gets (λ w, ready (sess w));;
  if r then
    m <- gets (λ w, subscriptions (sess w));;
    event_range (range_order m) event
  else ret tt.

(** [session.topics] *)
Definition topics : M (list subject) :=
  gets (λ w, range_order (subscriptions (sess w))).

(** [for _, subject := range subjects { subscriptions[subject] = true }] *)
Definition add_subjects (subjects : list subject) (m : gmap subject bool)
  : gmap subject bool :=
  foldl (λ m subject, <[subject := true]> m) m subjects.

(** [for _, subject := range topics { delete(subscriptions, subject) }] *)
Definition delete_subjects (subjects : list subject) (m : gmap subject bool)
  : gmap subject bool :=
  foldl (λ m subject, delete subject m) m subjects.

(** [session.subscribe]; a nil [params] is dereferenced all the same. *)
Definition subscribe (params : option RawMessage) : M unit :=
  match params with
  | None => panic NilDereference
  | Some raw =>
      match json_Unmarshal raw with
      | inl err => error StatusBadRequest err;;; close
      | inr subjects =>
          modify (upd_sess (λ s,
            set_subscriptions (add_subjects subjects (subscriptions s)) s));;;
          ts <- topics;;
          normal Method_SUBSCRIBE (DataTopics ts)
      end
  end.

(** [session.unsubscribe] *)
Definition unsubscribe (params : option RawMessage) : M unit :=
  match params with
  | None => panic NilDereference
  | Some raw =>
      match json_Unmarshal raw with
      | inl err => error StatusBadRequest err;;; close
      | inr subjects =>
          modify (upd_sess (λ s,
            set_subscriptions (delete_subjects subjects (subscriptions s)) s));;;
          ts <- topics;;
          normal Method_UNSUBSCRIBE (DataTopics ts)
      end
  end.

(** Statements run one after the other. *)
Fixpoint seq (body : list (M unit)) : M unit :=
  match body with
  | [] => ret tt
  | m :: rest => m;;; seq rest
  end.

(** The statements of the body that [session.disconnect] hands to
    [once.Do], in their order. *)
Definition teardown_body : list (M unit) :=
  [ modify (upd_sess (set_ready false));
    modify (upd_sess (set_closed true));
    (id <- gets (λ w, sess_id (sess w));;
     modify (λ w, set_store (dropSession id (store w)) w));
    close_chan closing set_closing;
    close_chan request set_request;
    close_chan response set_response;
    close_chan broadcast set_broadcast;
    (c <- gets (λ w, conn (sess w));;
     if c then
       modify (λ w, set_wire (mkTransport (tr_written (wire w)) true) w);;;
       modify (upd_sess (set_conn false))
     else ret tt) ].

Definition teardown : M unit := seq teardown_body.

(** [session.disconnect] *)
Definition disconnect : M unit :=
  ran <- gets (λ w, once (sess w));;
  if ran then ret tt
  else modify (upd_sess (set_once true));;; teardown.

(** ** The control loop *)

(** The case that [select] takes in one turn of [serve]'s loop. *)
Inductive select_case :=
| CaseHeartbeat      (* [<-time.After(session.opts.heartbeat)] *)
| CaseRequest        (* [<-session.request] *)
| CaseResponse       (* [<-session.response] *)
| CaseBroadcast      (* [<-session.broadcast] *)
| CaseClosing.       (* [<-session.closing] *)

#[global] Instance select_case_eq_dec : EqDecision select_case.
Proof. solve_decision. Defined.

Inductive loop_ctl := Continue | Return.

(** The [switch request.Method] of [serve]. *)
Definition dispatch (request : WebSocketRequest) (now : Z) : M unit :=
  let m := req_Method request in
  if bool_decide (m = Method_PING) then ping now
  else if bool_decide (m = Method_SUBSCRIBE) then subscribe (req_Params request)
  else if bool_decide (m = Method_UNSUBSCRIBE)
       then unsubscribe (req_Params request)
  else if bool_decide (m = Method_DISCONNECT) then close
  else error StatusBadRequest ("invalid method: " +:+ pretty m).

(** [event.Time = library.Now()] *)
Definition delivered (e : WebSocketBroadcast) (now : Z) : WebSocketBroadcast :=
  mkBroadcast (ev_Subject e) now (ev_Data e).

(** One turn of the loop of [session.serve], given the case taken and the
    clock reading [now]. *)
Definition serve_iter (c : select_case) (now : Z) : M loop_ctl :=
  match c with
  | CaseHeartbeat =>
      r <- gets (λ w, ready (sess w));;
      (if r then modify (upd_sess (set_ready false)) else ret tt);;;
      ret Continue
  | CaseRequest =>
      v <- recv request set_request;;
      match v with
      | Some request => dispatch request now
      | None => ret tt
      end;;;
      ret Continue
  | CaseResponse =>
      v <- recv response set_response;;
      match v with
      | Some response => _ <- write response;; ret tt
      | None => ret tt
      end;;;
      ret Continue
  | CaseBroadcast =>
      v <- recv broadcast set_broadcast;;
      match v with
      | Some e => event (delivered e now)
      | None => ret tt
      end;;;
      ret Continue
  | CaseClosing =>
      _ <- recv closing set_closing;;
      disconnect;;;
      ret Return
  end.

(** ** The ingress listener *)

(** [session.isCloseError] *)
Definition isCloseError (err : go_error) : Z :=
  match err with CloseError code _ => code | OtherError _ => -1 end.

(** The [select] that opens a turn of [listening]'s loop: it returns when
    [closing] can be received from, and otherwise goes on to read. *)
Definition listening_select : M loop_ctl :=
  λ w, match chan_recv (closing (sess w)) with
       | Some (_, c) => Done Return (upd_sess (set_closing c) w)
       | None => Done Continue w
       end.

(** The rest of the turn, from the result of [session.conn.ReadJSON]. *)
Definition listening_read (r : go_error + WebSocketRequest) : M loop_ctl :=
  match r with
  | inl err =>
      (let code := isCloseError err in
       if bool_decide (code = CloseNormalClosure)
          || bool_decide (code = CloseNoStatusReceived)
       then ret tt
       else error StatusBadRequest (Error err));;;
      close;;;
      ret Return
  | inr req =>
      ok <- gets (λ w, verifySession (req_ID req) (store w));;
      if negb ok then
        error StatusBadRequest
          ("invalid session id, " +:+ req_ID req +:+ " not connected");;;
        close;;;
        ret Return
      else
        c <- gets (λ w, closed (sess w));;
        if c then
          error StatusBadRequest "connect closed";;;
          ret Return
        else
          let forward := (send request set_request req;;; ret Continue) in
          if bool_decide (req_Method req = Method_PING) then forward
          else
            r <- gets (λ w, ready (sess w));;
            if negb r then
              error StatusBadRequest "connect not ready";;;
              ret Continue
            else
              match req_Params req with
              | None =>
                  error StatusBadRequest "params cannot be empty.";;;
                  ret Continue
              | Some _ => forward
              end
  end.

(** ** The running session

    The two goroutines of a session, [serve] and [listening], take turns; a
    turn of [serve] is one pass through its loop, a turn of [listening] is
    either its [select] or what follows the return of [ReadJSON].  The clock
    counts nanoseconds; [armed] is the instant at which [serve] entered its
    current [select] and created the timer [time.After(heartbeat)]. *)

Inductive listener_pc :=
| AtSelect         (* about to run the [select] *)
| InRead           (* blocked in [ReadJSON] *)
| ListenerGone.    (* returned or parked *)

Record system := mkSystem {
  sys_world : world;
  serving : bool;          (* [serve] is in its loop *)
  listener : listener_pc;
  crashed : bool;          (* a goroutine panicked *)
  clock : Z;
  armed : Z
}.

Inductive action :=
| Tick (d : Z)                                   (* time passes *)
| Serve (c : select_case)                        (* a turn of [serve] *)
| ListenSelect                                   (* [listening]: the select *)
| ListenRead (r : go_error + WebSocketRequest)   (* [listening]: after the read *)
| Publish (e : WebSocketBroadcast).              (* the station delivers *)

(** Whether [select] can take a case: the timer has fired, or the channel
    can be received from. *)
Definition case_ready (c : select_case) (s : system) : bool :=
  let ss := sess (sys_world s) in
  match c with
  | CaseHeartbeat => bool_decide (armed s + heartbeat ss ≤ clock s)%Z
  | CaseRequest => bool_decide (is_Some (chan_recv (request ss)))
  | CaseResponse => bool_decide (is_Some (chan_recv (response ss)))
  | CaseBroadcast => bool_decide (is_Some (chan_recv (broadcast ss)))
  | CaseClosing => bool_decide (is_Some (chan_recv (closing ss)))
  end.

(** Modelled from the spec: the broadcast station is absent from the
    session source; it pushes an event into the broadcast queue of the session
    without blocking, and drops the event when the queue cannot take it. *)
Definition station_push (e : WebSocketBroadcast) (w : world) : world :=
  match chan_send (broadcast (sess w)) e with
  | Sent c => upd_sess (set_broadcast c) w
  | Full | SendClosed => w
  end.

Definition after_serve (s : system) (o : outcome loop_ctl) : system :=
  match o with
  | Done Continue w =>
      mkSystem w true (listener s) false (clock s) (clock s)
  | Done Return w | Parked w =>
      mkSystem w false (listener s) false (clock s) (armed s)
  | Panic _ w =>
      mkSystem w false (listener s) true (clock s) (armed s)
  end.

Definition after_listen (s : system) (next : listener_pc)
    (o : outcome loop_ctl) : system :=
  match o with
  | Done Continue w =>
      mkSystem w (serving s) next false (clock s) (armed s)
  | Done Return w | Parked w =>
      mkSystem w (serving s) ListenerGone false (clock s) (armed s)
  | Panic _ w =>
      mkSystem w (serving s) ListenerGone true (clock s) (armed s)
  end.

(** One step of the running session; [None] when the action cannot happen
    in this state.  A turn of [serve] takes no time, and [serve] takes its
    timer turn when the timer fires: while [serve] is in its loop, time
    cannot run past the deadline of the timer it is waiting on. *)
Definition step (a : action) (s : system) : option system :=
  if crashed s then None
  else
    match a with
    | Tick d =>
        if bool_decide (0 ≤ d)%Z
           && (negb (serving s)
               || bool_decide (clock s + d
                               ≤ armed s + heartbeat (sess (sys_world s)))%Z)
        then Some (mkSystem (sys_world s) (serving s) (listener s) false
                     (clock s + d) (armed s))
        else None
    | Serve c =>
        if serving s && case_ready c s
        then Some (after_serve s (serve_iter c (clock s) (sys_world s)))
        else None
    | ListenSelect =>
        match listener s with
        | AtSelect =>
            Some (after_listen s InRead (listening_select (sys_world s)))
        | _ => None
        end
    | ListenRead r =>
        match listener s with
        | InRead =>
            Some (after_listen s AtSelect (listening_read r (sys_world s)))
        | _ => None
        end
    | Publish e =>
        Some (mkSystem (station_push e (sys_world s)) (serving s) (listener s)
                false (clock s) (armed s))
    end.

(** A sequence of steps. *)
Fixpoint run (tr : list action) (s : system) : option system :=
  match tr with
  | [] => Some s
  | a :: tr' =>
      match step a s with
      | Some s' => run tr' s'
      | None => None
      end
  end.

(** Modelled from the spec: the constructor of a session is absent from
    the session source; a session starts not ready and not closed, with an empty
    subscription set, open and empty queues of the given capacities, its
    connection set and its id registered by [createSession]. *)
Definition new_session (id : sessionID) (hb : Z) (creq cresp cbc ccl : nat)
  : session :=
  mkSession id ∅ (mkChan creq [] false) (mkChan cresp [] false)
    (mkChan cbc [] false) true hb false false false (mkChan ccl [] false).

Definition new_world (uuid : string) (hb : Z) (creq cresp cbc ccl : nat)
    (p : gmap sessionID unit) : world :=
  let '(id, p') := createSession uuid p in
  mkWorld (new_session id hb creq cresp cbc ccl) p' (mkTransport [] false).

(** [serve] has just been called: it starts [listening] and enters its
    loop at instant [t0]. *)
Definition initial (s : system) : Prop :=
  ∃ uuid hb creq cresp cbc ccl p t0,
    s = mkSystem (new_world uuid hb creq cresp cbc ccl p) true AtSelect false
          t0 t0.

Inductive reachable : system → Prop :=
| reach_initial s : initial s → reachable s
| reach_step s a s' : reachable s → step a s = Some s' → reachable s'.

(** The request that a turn [Serve CaseRequest] takes from the queue. *)
Definition next_request (s : system) : option WebSocketRequest :=
  head (ch_buf (request (sess (sys_world s)))).

(** The action is [serve] handling a PING request. *)
Definition handles_ping (a : action) (s : system) : Prop :=
  a = Serve CaseRequest ∧
  ∃ req, next_request s = Some req ∧ req_Method req = Method_PING.

(** ** Vocabulary of the statements *)

(** Running [m] leaves the observation [f] of the world as it was, whatever
    the outcome. *)
Definition keeps {A B} (f : world → B) (m : M A) : Prop :=
  ∀ w, f (final (m w)) = f w.

(** The flags of the session that the readiness claims are about. *)
Definition flags (w : world) : bool * bool :=
  (ready (sess w), closed (sess w)).

(** What only a teardown changes: the closed flag, the one-shot guard, the
    registry, and the connection. *)
Definition torn (w : world) : bool * bool * gmap sessionID unit * transport :=
  (closed (sess w), once (sess w), store w, wire w).

(** A closed session is not ready. *)
Definition closed_not_ready (w : world) : Prop :=
  closed (sess w) = true → ready (sess w) = false.

(** What the listener and the station leave alone. *)
Definition settled (w : world)
  : bool * bool * (bool * bool * gmap sessionID unit * transport) * Z :=
  (ready (sess w), closed (sess w), torn w, heartbeat (sess w)).

(** Everything of the world but the three queues that the listener sends
    on (inbound, outbound, closing). *)
Definition listener_frame (w : world) :=
  (sess_id (sess w), subscriptions (sess w), broadcast (sess w), conn (sess w),
   heartbeat (sess w), once (sess w), ready (sess w), closed (sess w),
   store w, wire w).

(** The session kept its id and the connection got more frames, each with
    that id, after the ones it had. *)
Definition extends_wire (w w' : world) : Prop :=
  sess_id (sess w') = sess_id (sess w) ∧
  ∃ more, tr_written (wire w') = tr_written (wire w) ++ more ∧
          Forall (λ v, resp_ID v = sess_id (sess w)) more.

(** The id of the session and the frames written to its connection. *)
Definition written (w : world) : sessionID * list WebSocketResponse :=
  (sess_id (sess w), tr_written (wire w)).

(** Between its timer turns [serve] takes nothing from a queue. *)
Definition quiet (tr : list action) : Prop :=
  Forall (λ a, ∀ c, a = Serve c → c = CaseHeartbeat) tr.

(** [handles_ping] as a test. *)
Definition is_ping_turn (a : action) (s : system) : bool :=
  match a with
  | Serve CaseRequest =>
      match next_request s with
      | Some req => bool_decide (req_Method req = Method_PING)
      | None => false
      end
  | _ => false
  end.

(** No step of the run is [serve] handling a PING request. *)
Fixpoint ping_free (tr : list action) (s : system) : bool :=
  match tr with
  | [] => true
  | a :: tr' =>
      negb (is_ping_turn a s)
      && match step a s with
         | Some s' => ping_free tr' s'
         | None => true
         end
  end.

End Hub.

Arguments reachable {RT} s.

(** ** A concrete runtime and concrete sessions

    Used to run the definitions above on examples.  The decoder accepts a
    JSON array of strings without escapes or blanks, and [null]; the order
    of [range] is the one of [elements]. *)

Definition dquote : Ascii.ascii := Ascii.ascii_of_nat 34.

Fixpoint read_string (s acc : string) : option (string * string) :=
  match s with
  | EmptyString => None
  | String c rest =>
      if Ascii.eqb c dquote then Some (acc, rest)
      else read_string rest (acc +:+ String c EmptyString)
  end.

Fixpoint read_items (fuel : nat) (s : string) : option (list subject) :=
  match fuel, s with
  | S fuel', String c rest =>
      if Ascii.eqb c dquote then
        match read_string rest EmptyString with
        | Some (item, String ","%char rest') => cons item <$> read_items fuel' rest'
        | Some (item, String "]"%char EmptyString) => Some [item]
        | _ => None
        end
      else None
  | _, _ => None
  end.

Definition sample_Unmarshal (raw : RawMessage) : string + list subject :=
  match raw with
  | "null" | "[]" => inr []
  | String "["%char rest =>
      match read_items (String.length rest) rest with
      | Some l => inr l
      | None => inl "invalid character"
      end
  | _ => inl "cannot unmarshal into Go value of type []websocket.subject"
  end.

Definition quoted (s : string) : string :=
  String dquote (s +:+ String dquote EmptyString).

(** The JSON text of one or two subjects. *)
Definition json1 (a : subject) : RawMessage := "[" +:+ quoted a +:+ "]".
Definition json2 (a b : subject) : RawMessage :=
  "[" +:+ quoted a +:+ "," +:+ quoted b +:+ "]".

Definition sample_runtime : GoRuntime :=
  {| json_Unmarshal := sample_Unmarshal;
     range_order := λ m, elements (dom m);
     range_order_perm := λ m, reflexivity (elements (dom m)) |}.

Definition sample_id : sessionID := "6ba7b810-9dad-41d1-80b4-00c04fd430c8".

(** A fresh session with a heartbeat of 10ns and queues of capacity 4, its
    closing channel of capacity 1, started at instant 0. *)
Definition sample_start : system :=
  mkSystem (new_world sample_id 10 4 4 4 1 ∅) true AtSelect false 0 0.

Definition ping_request : WebSocketRequest :=
  mkRequest sample_id Method_PING None.
Definition subscribe_request (raw : RawMessage) : WebSocketRequest :=
  mkRequest sample_id Method_SUBSCRIBE (Some raw).
Definition disconnect_request : WebSocketRequest :=
  mkRequest sample_id Method_DISCONNECT (Some "[]").

(** The client pings; [serve] answers and the answer is written. *)
Definition handshake : list action :=
  [ListenSelect; ListenRead (inr ping_request); Serve CaseRequest;
   Serve CaseResponse].

Definition sample_event (topic : subject) : WebSocketBroadcast :=
  mkBroadcast topic 0 "payload".

(** A ready session subscribed to ["a.*"] and ["a.b"] with one event on
    topic ["a.b"] in its broadcast queue. *)
Definition overlapping : world :=
  mkWorld
    (mkSession sample_id (<["a.*" := true]> (<["a.b" := true]> ∅))
       (mkChan 4 [] false) (mkChan 4 [] false)
       (mkChan 4 [sample_event "a.b"] false) true 10 false true false
       (mkChan 1 [] false))
    (<[sample_id := tt]> ∅) (mkTransport [] false).

(** The client asks to disconnect; the listener forwards the request and
    goes back to reading; [serve] handles the request, which signals
    [closing], and then takes the signal and tears the session down. *)
Definition disconnecting : list action :=
  [ListenSelect; ListenRead (inr disconnect_request); ListenSelect;
   Serve CaseRequest; Serve CaseClosing].

(** The read of the listener then ends with the close frame of the client,
    and the listener calls [close] in its turn. *)
Definition second_close : list action :=
  [ListenRead (inl (CloseError CloseNormalClosure "websocket: close 1000"))].

(** 6ns after the handshake the client subscribes; the request is handled
    and answered at once, and another 6ns pass. *)
Definition busy : list action :=
  [Tick 6; ListenSelect; ListenRead (inr (subscribe_request (json1 "orders.*")));
   Serve CaseRequest; Serve CaseResponse; Tick 6].

(** Nothing arrives: the timer fires 10ns after the handshake. *)
Definition idle : list action := [Tick 10; Serve CaseHeartbeat; Tick 1].

(** The state that a run of the sample session ends in. *)
Definition after (tr : list action) : system :=
  default sample_start (run (RT := sample_runtime) tr sample_start).



(** The sample session once [serve] has handled the DISCONNECT request:
    the closing signal is pending, and the listener is at its [select] or
    already reading. *)
Definition signalled_at_select : list action :=
  handshake ++ [ListenSelect; ListenRead (inr disconnect_request);
                Serve CaseRequest].
Definition signalled_in_read : list action :=
  handshake ++ [ListenSelect; ListenRead (inr disconnect_request);
                ListenSelect; Serve CaseRequest].

(** A request with a method number outside the enumeration. *)
Definition odd_request : WebSocketRequest :=
  mkRequest sample_id 7 (Some "[]").

(** The world of the sample session after its handshake, with one more
    request in its inbound queue. *)
Definition with_request (req : WebSocketRequest) : world :=
  upd_sess (set_request (mkChan 4 [req] false)) (sys_world (after handshake)).

(** A fresh session whose outbound queue is unbuffered, with a PING in its
    inbound queue. *)
Definition unbuffered : world :=
  upd_sess (set_request (mkChan 4 [ping_request] false))
    (new_world sample_id 10 4 0 4 1 ∅).

Section HubFacts.
Context `{RT : GoRuntime}.

(** ** Facts about the string primitives *)

Lemma substring_0_append (p r : string) :
  String.substring 0 (String.length p) (p +:+ r) = p.
Proof.
  induction p as [|a p IH]; simpl.
  - by destruct r.
  - by rewrite IH.
Qed.

Lemma length_append (p r : string) :
  String.length (p +:+ r) = (String.length p + String.length r)%nat.
Proof. induction p as [|a p IH]; simpl; [done | by rewrite IH]. Qed.

Lemma substring_0_split (n : nat) (s : string) :
  (n <= String.length s)%nat →
  ∃ r, s = String.substring 0 n s +:+ r.
Proof.
  revert s. induction n as [|n IH]; intros s Hn.
  - exists s. by destruct s.
  - destruct s as [|a s]; simpl in *; [lia |].
    destruct (IH s) as [r Hr]; [lia |].
    exists r. change (String a s = String a (String.substring 0 n s +:+ r)).
    by f_equal.
Qed.

Lemma HasPrefix_spec (s p : string) :
  HasPrefix s p = true ↔ ∃ r, s = p +:+ r.
Proof.
  unfold HasPrefix. rewrite andb_true_iff, Nat.leb_le, String.eqb_eq. split.
  - intros [Hlen Heq]. destruct (substring_0_split _ _ Hlen) as [r Hr].
    exists r. by rewrite Heq in Hr.
  - intros [r ->]. rewrite length_append, substring_0_append. split; [lia | done].
Qed.

Lemma last_char_split (s : string) :
  s ≠ "" →
  ∃ p c, s = p +:+ String c "" ∧
         String.substring (String.length s - 1) 1 s = String c "" ∧
         String.substring 0 (String.length s - 1) s = p.
Proof.
  induction s as [|a s IH]; [done |]. intros _.
  destruct s as [|b s].
  - exists "", a. by simpl.
  - destruct IH as (p & c & Hs & Hl & Hp); [done |].
    exists (String a p), c. simpl in *.
    rewrite Nat.sub_0_r in *.
    rewrite Hs at 1. split; [done |]. split; [done |].
    by rewrite Hp.
Qed.

Lemma append_inj_last (p q : string) (c d : Ascii.ascii) :
  p +:+ String c "" = q +:+ String d "" → p = q ∧ c = d.
Proof.
  revert q. induction p as [|a p IH]; intros [|b q]; simpl; intros H.
  - by injection H.
  - injection H as _ H. by destruct q.
  - injection H as _ H. by destruct p.
  - injection H as -> H. destruct (IH _ H) as [-> ->]. done.
Qed.

Lemma HasSuffix_star (s : string) :
  HasSuffix s "*" = true ↔ ∃ p, s = p +:+ "*".
Proof.
  unfold HasSuffix. rewrite andb_true_iff, Nat.leb_le, String.eqb_eq. simpl.
  split.
  - intros [Hlen Heq]. destruct s as [|a s]; [simpl in Hlen; lia |].
    destruct (last_char_split (String a s)) as (p & c & Hs & Hl & _); [done |].
    exists p. rewrite Hs at 1. simpl in Heq, Hl. rewrite Hl in Heq. by rewrite Heq.
  - intros [p ->].
    destruct (last_char_split (p +:+ "*")) as (q & c & Hs & Hl & _).
    { by destruct p. }
    apply append_inj_last in Hs as [-> <-].
    split; [rewrite length_append; simpl; lia | done].
Qed.

Lemma TrimSuffix_star (p : string) : TrimSuffix (p +:+ "*") "*" = p.
Proof.
  unfold TrimSuffix.
  assert (HasSuffix (p +:+ "*") "*" = true) as -> by (apply HasSuffix_star; eauto).
  destruct (last_char_split (p +:+ "*")) as (q & c & Hs & _ & Hp).
  { by destruct p. }
  apply append_inj_last in Hs as [-> _]. done.
Qed.

(** ** The subject matcher *)

(** C1: [verify] answers true for the pattern ["*"], true when pattern and
    topic are equal, and otherwise, for a pattern ending in ['*'], exactly
    when the topic starts with the pattern without that last ['*']; in every
    other case it answers false. *)
Theorem verify_spec (sub tar : subject) :
  (sub = "*" → verify sub tar = true) ∧
  (sub = tar → verify sub tar = true) ∧
  (∀ p, sub ≠ "*" → sub ≠ tar → sub = p +:+ "*" →
        (verify sub tar = true ↔ ∃ r, tar = p +:+ r)) ∧
  (sub ≠ "*" → sub ≠ tar → (∀ p, sub ≠ p +:+ "*") → verify sub tar = false).
Proof.
  unfold verify. split; [| split; [| split]].
  - intros ->. done.
  - intros ->. rewrite String.eqb_refl. by destruct (String.eqb tar "*").
  - intros p H1 H2 ->.
    apply String.eqb_neq in H1, H2. rewrite H1, H2, TrimSuffix_star.
    assert (HasSuffix (p +:+ "*") "*" = true) as ->
      by (apply HasSuffix_star; eauto).
    apply HasPrefix_spec.
  - intros H1 H2 Hp.
    apply String.eqb_neq in H1, H2. rewrite H1, H2.
    destruct (HasSuffix sub "*") eqn:Hs; [| done].
    apply HasSuffix_star in Hs as [p ->]. by destruct (Hp p).
Qed.
(** ** Running the monad *)

Lemma bind_Done {A B} (m : M A) (k : A → M B) w a w' :
  m w = Done a w' → bind m k w = k a w'.
Proof. unfold bind. by intros ->. Qed.

Lemma chan_send_can {A} (c : chan A) (v : A) :
  can_send c → chan_send c v = Sent (pushed c v).
Proof.
  intros [Hc Hl]. unfold chan_send. rewrite Hc.
  by apply Nat.ltb_lt in Hl as ->.
Qed.

Lemma send_can {A} (get : session → chan A) set (v : A) w :
  can_send (get (sess w)) →
  send get set v w = Done tt (upd_sess (set (pushed (get (sess w)) v)) w).
Proof. intros Hc. unfold send. by rewrite chan_send_can. Qed.

Lemma normal_can method data w :
  can_send (response (sess w)) →
  normal method data w =
  Done tt (upd_sess (set_response (pushed (response (sess w))
             (mkResponse (sess_id (sess w)) StatusOK StatusText_OK method data))) w).
Proof. intros Hc. unfold normal, bind, gets. by rewrite send_can. Qed.

Lemma error_can code msg w :
  can_send (response (sess w)) →
  error code msg w =
  Done tt (upd_sess (set_response (pushed (response (sess w))
             (mkResponse (sess_id (sess w)) code msg 0 DataNil))) w).
Proof. intros Hc. unfold error, bind, gets. by rewrite send_can. Qed.

Lemma recv_head {A} (get : session → chan A) set w v rest :
  ch_buf (get (sess w)) = v :: rest →
  recv get set w =
  Done (Some v)
    (upd_sess (set (mkChan (ch_cap (get (sess w))) rest
                      (ch_closed (get (sess w))))) w).
Proof. intros Hb. unfold recv, chan_recv. by rewrite Hb. Qed.

(** ** The registry *)

Lemma verifySession_dom id (p : gmap sessionID unit) :
  verifySession id p = true ↔ id ∈ dom p.
Proof.
  unfold verifySession. rewrite elem_of_dom.
  destruct (p !! id) eqn:E; split; try done; try by eexists.
  all: try by intros [? ?].
Qed.

Lemma verifySession_false id (p : gmap sessionID unit) :
  verifySession id p = false ↔ p !! id = None.
Proof. unfold verifySession. by destruct (p !! id). Qed.

Lemma dropSession_many_keeps id ids (p : gmap sessionID unit) :
  id ∉ ids → verifySession id p = true →
  verifySession id (foldr dropSession p ids) = true.
Proof.
  induction ids as [|j ids IH]; simpl; [done |].
  intros Hn Hv. apply not_elem_of_cons in Hn as [Hne Hn].
  specialize (IH Hn Hv). unfold verifySession in *. unfold dropSession at 1.
  by rewrite lookup_delete_ne.
Qed.

(** C9, as the code has it: [createSession] registers the generated id and
    returns it, so the id verifies at once and as long as only other ids are
    dropped, and no other id is affected; when the generated id is not yet
    registered the registry grows by exactly that entry.  [verifySession] is
    the membership test.  [dropSession] removes the id, leaves the others,
    and does nothing to a registry that lacks the id. *)
Theorem pool_operations (p : gmap sessionID unit) (uuid id : sessionID) :
  let '(new, p') := createSession uuid p in
  (new = uuid ∧ verifySession new p' = true) ∧
  (∀ j, j ≠ new → verifySession j p' = verifySession j p) ∧
  (∀ ids, new ∉ ids → verifySession new (foldr dropSession p' ids) = true) ∧
  (verifySession uuid p = false → size p' = S (size p)) ∧
  (verifySession id p = true ↔ id ∈ dom p) ∧
  verifySession id (dropSession id p) = false ∧
  (∀ j, j ≠ id → verifySession j (dropSession id p) = verifySession j p) ∧
  (verifySession id p = false → dropSession id p = p) ∧
  dropSession id (dropSession id p) = dropSession id p.
Proof.
  unfold createSession.
  assert (verifySession uuid (<[uuid:=()]> p) = true) as Hnew.
  { unfold verifySession. by rewrite lookup_insert_eq. }
  split; [done |].
  split.
  { intros j Hj. unfold verifySession. by rewrite lookup_insert_ne. }
  split.
  { intros ids Hn. by apply dropSession_many_keeps. }
  split.
  { intros Hf. apply verifySession_false in Hf.
    by apply map_size_insert_None. }
  split; [apply verifySession_dom |].
  split.
  { unfold verifySession, dropSession. by rewrite lookup_delete_eq. }
  split.
  { intros j Hj. unfold verifySession, dropSession.
    by rewrite lookup_delete_ne. }
  split.
  { intros Hf. apply verifySession_false in Hf. by apply delete_id. }
  unfold dropSession. apply delete_id. by rewrite lookup_delete_eq.
Qed.

(** ** Outbound writes *)

Lemma write_not_ready v w :
  ready (sess w) = false → write v w = Done None w.
Proof. intros Hr. unfold write, bind, gets. by rewrite Hr. Qed.

Lemma write_ready v w :
  ready (sess w) = true → conn (sess w) = true → tr_closed (wire w) = false →
  write v w =
  Done None
    (set_wire (mkTransport (tr_written (wire w) ++ [stamped (sess_id (sess w)) v])
                 false) w).
Proof.
  intros Hr Hc Ht. unfold write, WriteJSON, bind, gets, modify, ret.
  by rewrite Hr, Hc, Ht.
Qed.

Lemma write_wire_changed v w :
  wire (final (write v w)) ≠ wire w → ready (sess w) = true.
Proof.
  intros Hw. destruct (ready (sess w)) eqn:Hr; [done |].
  by rewrite write_not_ready in Hw.
Qed.

(** C8: a response taken from the outbound queue reaches the transport only
    when the session is ready; when it is not ready [write] returns nil and
    changes nothing, so the entry is dropped: the turn of the loop only
    removes it from the queue. *)
Theorem write_only_when_ready (v : WebSocketResponse) (w : world) (now : Z) :
  (ready (sess w) = false → write v w = Done None w) ∧
  (wire (final (write v w)) ≠ wire w → ready (sess w) = true) ∧
  (ready (sess w) = true → conn (sess w) = true → tr_closed (wire w) = false →
   write v w =
   Done None
     (set_wire (mkTransport
                  (tr_written (wire w) ++ [stamped (sess_id (sess w)) v]) false) w)) ∧
  (∀ rest, ch_buf (response (sess w)) = v :: rest →
     let w1 := upd_sess (set_response
                 (mkChan (ch_cap (response (sess w))) rest
                    (ch_closed (response (sess w))))) w in
     (ready (sess w) = false → serve_iter CaseResponse now w = Done Continue w1) ∧
     (wire (final (serve_iter CaseResponse now w)) ≠ wire w →
      ready (sess w) = true)).
Proof.
  split; [apply write_not_ready |].
  split; [apply write_wire_changed |].
  split; [apply write_ready |].
  intros rest Hb w1.
  assert (ready (sess w) = false → serve_iter CaseResponse now w = Done Continue w1)
    as Hdrop.
  { intros Hr. unfold serve_iter, bind.
    rewrite (recv_head _ _ _ _ _ Hb). fold w1.
    by rewrite (write_not_ready v w1 Hr). }
  split; [done |].
  intros Hw. destruct (ready (sess w)) eqn:Hr; [done |].
  by rewrite Hdrop in Hw.
Qed.
(** ** Broadcast dispatch *)

Lemma range_order_elem (m : gmap subject bool) (p : subject) :
  p ∈ range_order m ↔ p ∈ dom m.
Proof. by rewrite range_order_perm, elem_of_elements. Qed.

Lemma event_range_none keys e w :
  (∀ p, p ∈ keys → verify p (ev_Subject e) = false) →
  event_range keys e w = Done tt w.
Proof.
  induction keys as [|k keys IH]; intros Hn; simpl; [done |].
  rewrite (Hn k) by apply list_elem_of_here.
  apply IH. intros p Hp. apply Hn. by apply list_elem_of_further.
Qed.

Lemma event_range_some keys e w :
  (∃ p, p ∈ keys ∧ verify p (ev_Subject e) = true) →
  event_range keys e w = normal Method_BROADCAST (DataEvent e) w.
Proof.
  induction keys as [|k keys IH]; intros (p & Hp & Hv); simpl.
  - by apply elem_of_nil in Hp.
  - destruct (verify k (ev_Subject e)) eqn:Hk; [done |].
    apply IH. exists p. split; [| done].
    apply elem_of_cons in Hp as [-> | Hp]; [congruence | done].
Qed.

(** C2: a turn of the loop that takes an event from the broadcast queue
    puts exactly one BROADCAST response on the outbound queue when the
    session is ready and some subscribed pattern matches the subject, however
    many patterns match; it puts none when no pattern matches, and none when
    the session is not ready. *)
Theorem broadcast_at_most_once (w : world) (e : WebSocketBroadcast)
    (rest : list WebSocketBroadcast) (now : Z) :
  ch_buf (broadcast (sess w)) = e :: rest →
  let w1 := upd_sess (set_broadcast
              (mkChan (ch_cap (broadcast (sess w))) rest
                 (ch_closed (broadcast (sess w))))) w in
  let one := mkResponse (sess_id (sess w)) StatusOK StatusText_OK
               Method_BROADCAST (DataEvent (delivered e now)) in
  (ready (sess w) = false →
   serve_iter CaseBroadcast now w = Done Continue w1) ∧
  (ready (sess w) = true →
   (∀ p, p ∈ dom (subscriptions (sess w)) → verify p (ev_Subject e) = false) →
   serve_iter CaseBroadcast now w = Done Continue w1) ∧
  (ready (sess w) = true →
   (∃ p, p ∈ dom (subscriptions (sess w)) ∧ verify p (ev_Subject e) = true) →
   can_send (response (sess w)) →
   serve_iter CaseBroadcast now w =
   Done Continue
     (upd_sess (set_response
        (mkChan (ch_cap (response (sess w)))
           (ch_buf (response (sess w)) ++ [one]) false)) w1)).
Proof.
  intros Hb w1 one.
  assert (∀ o, event (delivered e now) w1 = Done tt o →
               serve_iter CaseBroadcast now w = Done Continue o) as Hturn.
  { intros o Ho. unfold serve_iter, bind.
    rewrite (recv_head _ _ _ _ _ Hb). fold w1.
    by rewrite Ho. }
  split; [| split].
  - intros Hr. apply Hturn. unfold event, bind, gets. simpl. by rewrite Hr.
  - intros Hr Hn. apply Hturn. unfold event, bind, gets. simpl. rewrite Hr.
    apply event_range_none. intros p Hp. apply Hn. by apply range_order_elem.
  - intros Hr (p & Hp & Hv) Hc. apply Hturn. unfold event, bind, gets. simpl.
    rewrite Hr. rewrite event_range_some.
    + by rewrite normal_can.
    + exists p. split; [by apply range_order_elem | done].
Qed.
(** ** What a call leaves unchanged *)

Lemma keeps_ret {A B} (f : world → B) (a : A) : keeps f (ret a).
Proof. by intros w. Qed.

Lemma keeps_gets {A B} (f : world → B) (g : world → A) : keeps f (gets g).
Proof. by intros w. Qed.

Lemma keeps_panic {A B} (f : world → B) (e : fault) : keeps f (@panic A e).
Proof. by intros w. Qed.

Lemma keeps_modify {B} (f : world → B) (g : world → world) :
  (∀ w, f (g w) = f w) → keeps f (modify g).
Proof. intros Hg w. apply Hg. Qed.

Lemma keeps_bind {A B C} (f : world → C) (m : M A) (k : A → M B) :
  keeps f m → (∀ a, keeps f (k a)) → keeps f (bind m k).
Proof.
  intros Hm Hk w. unfold bind. specialize (Hm w).
  destruct (m w) as [a w'| w' | e w']; simpl in *; [| done | done].
  by rewrite Hk.
Qed.

Lemma keeps_send {A B} (f : world → B) (get : session → chan A) set (v : A) :
  (∀ c w, f (upd_sess (set c) w) = f w) → keeps f (send get set v).
Proof.
  intros Hs w. unfold send. destruct (chan_send _ _); simpl; [apply Hs | done..].
Qed.

Lemma keeps_recv {A B} (f : world → B) (get : session → chan A) set :
  (∀ c w, f (upd_sess (set c) w) = f w) → keeps f (recv get set).
Proof.
  intros Hs w. unfold recv. destruct (chan_recv _) as [[v c]|]; simpl;
    [apply Hs | done].
Qed.

Lemma keeps_close_chan {A B} (f : world → B) (get : session → chan A) set :
  (∀ c w, f (upd_sess (set c) w) = f w) → keeps f (close_chan get set).
Proof.
  intros Hs w. unfold close_chan. destruct (chan_close _); simpl;
    [apply Hs | done].
Qed.

Lemma keeps_normal {B} (f : world → B) method data :
  (∀ c w, f (upd_sess (set_response c) w) = f w) → keeps f (normal method data).
Proof.
  intros Hs. apply keeps_bind; [apply keeps_gets |].
  intros id. by apply keeps_send.
Qed.

Lemma keeps_error {B} (f : world → B) code msg :
  (∀ c w, f (upd_sess (set_response c) w) = f w) → keeps f (error code msg).
Proof.
  intros Hs. apply keeps_bind; [apply keeps_gets |].
  intros id. by apply keeps_send.
Qed.

Lemma keeps_close {B} (f : world → B) :
  (∀ c w, f (upd_sess (set_closing c) w) = f w) → keeps f close.
Proof. intros Hs. by apply keeps_send. Qed.

(** ** The subscription set *)

Lemma add_subjects_lookup subjects (m : gmap subject bool) k :
  add_subjects subjects m !! k =
  if decide (k ∈ subjects) then Some true else m !! k.
Proof.
  revert m. induction subjects as [|s l IH]; intros m; simpl.
  - done.
  - rewrite IH.
    destruct (decide (k ∈ l)) as [Hl | Hl].
    + by rewrite decide_True by (by apply list_elem_of_further).
    + destruct (decide (k = s)) as [-> | Hne].
      * rewrite decide_True by apply list_elem_of_here.
        by rewrite lookup_insert_eq.
      * rewrite decide_False by (rewrite elem_of_cons; naive_solver).
        by rewrite lookup_insert_ne.
Qed.

Lemma delete_subjects_lookup subjects (m : gmap subject bool) k :
  delete_subjects subjects m !! k =
  if decide (k ∈ subjects) then None else m !! k.
Proof.
  revert m. induction subjects as [|s l IH]; intros m; simpl.
  - done.
  - rewrite IH.
    destruct (decide (k ∈ l)) as [Hl | Hl].
    + by rewrite decide_True by (by apply list_elem_of_further).
    + destruct (decide (k = s)) as [-> | Hne].
      * rewrite decide_True by apply list_elem_of_here.
        by rewrite lookup_delete_eq.
      * rewrite decide_False by (rewrite elem_of_cons; naive_solver).
        by rewrite lookup_delete_ne.
Qed.

Lemma add_subjects_dom subjects (m : gmap subject bool) :
  dom (add_subjects subjects m) = dom m ∪ list_to_set subjects.
Proof.
  apply set_eq. intros k.
  rewrite elem_of_union, elem_of_list_to_set, !elem_of_dom, add_subjects_lookup.
  destruct (decide (k ∈ subjects)); naive_solver.
Qed.

Lemma delete_subjects_dom subjects (m : gmap subject bool) :
  dom (delete_subjects subjects m) = dom m ∖ list_to_set subjects.
Proof.
  apply set_eq. intros k.
  rewrite elem_of_difference, elem_of_list_to_set, !elem_of_dom,
    delete_subjects_lookup.
  destruct (decide (k ∈ subjects)); [| naive_solver].
  split; [by intros [? ?] | naive_solver].
Qed.

Lemma add_subjects_present subjects (m : gmap subject bool) :
  (∀ s, s ∈ subjects → m !! s = Some true) → add_subjects subjects m = m.
Proof.
  intros Hin. apply map_eq. intros k. rewrite add_subjects_lookup.
  destruct (decide (k ∈ subjects)); [by rewrite Hin | done].
Qed.

Lemma add_subjects_twice subjects (m : gmap subject bool) :
  add_subjects subjects (add_subjects subjects m) = add_subjects subjects m.
Proof.
  apply add_subjects_present. intros s Hs. rewrite add_subjects_lookup.
  by rewrite decide_True.
Qed.

Lemma delete_subjects_absent subjects (m : gmap subject bool) :
  (∀ s, s ∈ subjects → s ∉ dom m) → delete_subjects subjects m = m.
Proof.
  intros Hout. apply map_eq. intros k. rewrite delete_subjects_lookup.
  destruct (decide (k ∈ subjects)) as [Hk | Hk]; [| done].
  symmetry. apply not_elem_of_dom. by apply Hout.
Qed.

Lemma subscribe_subscriptions raw subjects w :
  json_Unmarshal raw = inr subjects →
  subscriptions (sess (final (subscribe (Some raw) w))) =
  add_subjects subjects (subscriptions (sess w)).
Proof.
  intros Hj. unfold subscribe. rewrite Hj.
  set (w2 := upd_sess (λ s, set_subscriptions
                (add_subjects subjects (subscriptions s)) s) w).
  change (bind (modify _) _ w) with
    (bind topics (λ ts, normal Method_SUBSCRIBE (DataTopics ts)) w2).
  rewrite (keeps_bind (λ w, subscriptions (sess w))); [done | apply keeps_gets |].
  intros ts. by apply keeps_normal.
Qed.

Lemma unsubscribe_subscriptions raw subjects w :
  json_Unmarshal raw = inr subjects →
  subscriptions (sess (final (unsubscribe (Some raw) w))) =
  delete_subjects subjects (subscriptions (sess w)).
Proof.
  intros Hj. unfold unsubscribe. rewrite Hj.
  set (w2 := upd_sess (λ s, set_subscriptions
                (delete_subjects subjects (subscriptions s)) s) w).
  change (bind (modify _) _ w) with
    (bind topics (λ ts, normal Method_UNSUBSCRIBE (DataTopics ts)) w2).
  rewrite (keeps_bind (λ w, subscriptions (sess w))); [done | apply keeps_gets |].
  intros ts. by apply keeps_normal.
Qed.

(** C7: SUBSCRIBE adds the decoded patterns to the subscription set and
    UNSUBSCRIBE removes them.  Subscribing to patterns already in the set
    leaves the set as it was, subscribing a second time changes nothing, and
    one pattern subscribed twice to an empty set gives a set of size 1;
    unsubscribing patterns that are not in the set leaves it as it was.  On
    success each of them replies, with code 200 and its own method, with the
    list of all patterns now in the set. *)
Theorem subscribe_unsubscribe_idempotent (w : world) (raw : RawMessage)
    (subjects : list subject) :
  json_Unmarshal raw = inr subjects →
  let m := subscriptions (sess w) in
  let ws := final (subscribe (Some raw) w) in
  let wu := final (unsubscribe (Some raw) w) in
  let reply method ts :=
    pushed (response (sess w))
      (mkResponse (sess_id (sess w)) StatusOK StatusText_OK method
         (DataTopics ts)) in
  dom (subscriptions (sess ws)) = dom m ∪ list_to_set subjects ∧
  ((∀ s, s ∈ subjects → s ∈ dom m) → dom (subscriptions (sess ws)) = dom m) ∧
  ((∀ s, s ∈ subjects → m !! s = Some true) → subscriptions (sess ws) = m) ∧
  subscriptions (sess (final (subscribe (Some raw) ws))) =
    subscriptions (sess ws) ∧
  (∀ p, m = ∅ → subjects = [p] →
        size (subscriptions (sess (final (subscribe (Some raw) ws)))) = 1) ∧
  dom (subscriptions (sess wu)) = dom m ∖ list_to_set subjects ∧
  ((∀ s, s ∈ subjects → s ∉ dom m) → subscriptions (sess wu) = m) ∧
  (can_send (response (sess w)) →
   (∃ ts, ts ≡ₚ elements (dom (add_subjects subjects m)) ∧
      subscribe (Some raw) w =
      Done tt (upd_sess (set_response (reply Method_SUBSCRIBE ts))
                 (upd_sess (set_subscriptions (add_subjects subjects m)) w))) ∧
   (∃ ts, ts ≡ₚ elements (dom (delete_subjects subjects m)) ∧
      unsubscribe (Some raw) w =
      Done tt (upd_sess (set_response (reply Method_UNSUBSCRIBE ts))
                 (upd_sess (set_subscriptions (delete_subjects subjects m)) w)))).
Proof.
  intros Hj m ws wu reply.
  assert (subscriptions (sess ws) = add_subjects subjects m) as Hs
    by (by apply subscribe_subscriptions).
  assert (subscriptions (sess wu) = delete_subjects subjects m) as Hu
    by (by apply unsubscribe_subscriptions).
  assert (subscriptions (sess (final (subscribe (Some raw) ws))) =
          add_subjects subjects m) as Hss.
  { rewrite (subscribe_subscriptions raw subjects ws Hj), Hs.
    apply add_subjects_twice. }
  split; [rewrite Hs; apply add_subjects_dom |].
  split.
  { intros Hin. rewrite Hs, add_subjects_dom.
    apply set_eq. intros k. rewrite elem_of_union, elem_of_list_to_set.
    naive_solver. }
  split; [intros Hin; rewrite Hs; by apply add_subjects_present |].
  split; [by rewrite Hss, Hs |].
  split.
  { intros p Hm ->. rewrite Hss, Hm. unfold add_subjects. simpl.
    rewrite insert_empty. apply map_size_singleton. }
  split; [rewrite Hu; apply delete_subjects_dom |].
  split; [intros Hout; rewrite Hu; by apply delete_subjects_absent |].
  intros Hc. split.
  - exists (range_order (add_subjects subjects m)).
    split; [apply range_order_perm |].
    unfold subscribe. rewrite Hj. unfold bind, modify, topics, gets.
    by rewrite normal_can.
  - exists (range_order (delete_subjects subjects m)).
    split; [apply range_order_perm |].
    unfold unsubscribe. rewrite Hj. unfold bind, modify, topics, gets.
    by rewrite normal_can.
Qed.
(** ** Admission checks of the listener *)

(** ** Readiness and closure along the handlers *)

Ltac keeps_step :=
  first
    [ apply keeps_ret | apply keeps_gets | apply keeps_panic
    | apply keeps_modify; intros; reflexivity
    | apply keeps_send; intros; reflexivity
    | apply keeps_recv; intros; reflexivity
    | apply keeps_close_chan; intros; reflexivity
    | apply keeps_bind; [| intros ?]
    | match goal with
      | |- keeps _ (if ?b then _ else _) => destruct b
      | |- keeps _ (match ?x with _ => _ end) => destruct x
      end ].
Ltac keeps_tac := repeat keeps_step.

Lemma keeps_write {B} (f : world → B) v :
  (∀ t w, f (set_wire t w) = f w) → keeps f (write v).
Proof.
  intros Hw. unfold write, WriteJSON. keeps_tac.
  apply keeps_modify. intros w. apply Hw.
Qed.

Lemma keeps_event_range {B} (f : world → B) keys e :
  (∀ c w, f (upd_sess (set_response c) w) = f w) → keeps f (event_range keys e).
Proof.
  intros Hs. induction keys as [|k keys IH]; simpl; [apply keeps_ret |].
  destruct (verify k (ev_Subject e)); [by apply keeps_normal | done].
Qed.

Lemma keeps_event {B} (f : world → B) e :
  (∀ c w, f (upd_sess (set_response c) w) = f w) → keeps f (event e).
Proof.
  intros Hs. unfold event. keeps_tac. by apply keeps_event_range.
Qed.

Lemma keeps_flags_subscribe params : keeps flags (subscribe params).
Proof. unfold subscribe, error, close, normal, topics. keeps_tac. Qed.

Lemma keeps_flags_unsubscribe params : keeps flags (unsubscribe params).
Proof. unfold unsubscribe, error, close, normal, topics. keeps_tac. Qed.

Lemma keeps_flags_listening_read r : keeps flags (listening_read r).
Proof. unfold listening_read, error, close. keeps_tac. Qed.

Lemma keeps_flags_listening_select : keeps flags listening_select.
Proof.
  intros w. unfold listening_select.
  by destruct (chan_recv _) as [[v c]|].
Qed.

Lemma keeps_flags_station e w : flags (station_push e w) = flags w.
Proof. unfold station_push. by destruct (chan_send _ _). Qed.

Lemma keeps_closed_ping now : keeps (λ w, closed (sess w)) (ping now).
Proof. unfold ping, normal. keeps_tac. Qed.

Lemma ping_ready now w :
  ready (sess (final (ping now w))) =
  if closed (sess w) then ready (sess w) else true.
Proof.
  unfold ping, bind, gets. simpl. destruct (closed (sess w)); simpl; [done |].
  unfold modify.
  by rewrite (keeps_normal (λ w, ready (sess w))).
Qed.

(** The handlers of a request other than PING touch neither flag. *)
Lemma keeps_flags_dispatch req now :
  req_Method req ≠ Method_PING → keeps flags (dispatch req now).
Proof.
  intros Hm. unfold dispatch. rewrite bool_decide_eq_false_2 by done.
  repeat case_bool_decide.
  - apply keeps_flags_subscribe.
  - apply keeps_flags_unsubscribe.
  - by apply keeps_close.
  - by apply keeps_error.
Qed.

Lemma keeps_closed_dispatch req now :
  keeps (λ w, closed (sess w)) (dispatch req now).
Proof.
  destruct (decide (req_Method req = Method_PING)) as [Hm | Hm].
  - unfold dispatch. rewrite bool_decide_eq_true_2 by done.
    apply keeps_closed_ping.
  - intros w. by pose proof (keeps_flags_dispatch req now Hm w) as [=].
Qed.

Lemma dispatch_closed_not_ready req now w :
  closed_not_ready w → closed_not_ready (final (dispatch req now w)).
Proof.
  intros Hi. destruct (decide (req_Method req = Method_PING)) as [Hm | Hm].
  - unfold dispatch. rewrite bool_decide_eq_true_2 by done.
    unfold closed_not_ready. rewrite keeps_closed_ping, ping_ready.
    intros Hc. rewrite Hc. by apply Hi.
  - pose proof (keeps_flags_dispatch req now Hm w) as [= Hr Hc].
    unfold closed_not_ready. by rewrite Hr, Hc.
Qed.

(** Whatever happens during the teardown, the session is left not ready. *)
Lemma teardown_not_ready w : ready (sess (final (teardown w))) = false.
Proof.
  unfold teardown, teardown_body. cbn [seq].
  rewrite (bind_Done _ _ w tt (upd_sess (set_ready false) w)) by done.
  match goal with |- ready (sess (final (?m ?w'))) = false =>
    assert (keeps (λ w, ready (sess w)) m) as Hk by keeps_tac;
    exact (Hk w')
  end.
Qed.

Lemma disconnect_not_ready w :
  once (sess w) = false → ready (sess (final (disconnect w))) = false.
Proof.
  intros Ho. unfold disconnect, bind at 1, gets. rewrite Ho.
  rewrite (bind_Done _ _ w tt (upd_sess (set_once true) w)) by done.
  apply teardown_not_ready.
Qed.

Lemma disconnect_once w :
  once (sess w) = true → disconnect w = Done tt w.
Proof. intros Ho. unfold disconnect, bind, gets. by rewrite Ho. Qed.

Lemma serve_iter_closed_not_ready c now w :
  closed_not_ready w → closed_not_ready (final (serve_iter c now w)).
Proof.
  intros Hi. destruct c; unfold serve_iter.
  - unfold bind, gets, closed_not_ready in *.
    destruct (ready (sess w)) eqn:Hr; simpl; [done | by rewrite Hr].
  - unfold bind at 1.
    pose proof (keeps_recv flags request set_request
                  ltac:(intros; reflexivity) w) as Hk.
    destruct (recv request set_request w) as [[req|] w1 | w1 | e w1];
      simpl in Hk; injection Hk as Hr Hc; unfold closed_not_ready in *.
    + assert (closed_not_ready w1) as Hi1
        by (unfold closed_not_ready; by rewrite Hr, Hc).
      pose proof (dispatch_closed_not_ready req now w1 Hi1) as Hd.
      unfold bind. destruct (dispatch req now w1); exact Hd.
    + simpl. by rewrite Hr, Hc.
    + simpl. by rewrite Hr, Hc.
    + simpl. by rewrite Hr, Hc.
  - assert (keeps flags (serve_iter CaseResponse now)) as Hk.
    { unfold serve_iter. keeps_tac; try by apply keeps_write. }
    unfold serve_iter in Hk. specialize (Hk w). injection Hk as Hr Hc.
    unfold closed_not_ready in *. by rewrite Hr, Hc.
  - assert (keeps flags (serve_iter CaseBroadcast now)) as Hk.
    { unfold serve_iter. keeps_tac; by apply keeps_event_range. }
    unfold serve_iter in Hk. specialize (Hk w). injection Hk as Hr Hc.
    unfold closed_not_ready in *. by rewrite Hr, Hc.
  - unfold bind at 1.
    pose proof (keeps_recv flags closing set_closing
                  ltac:(intros; reflexivity) w) as Hk.
    destruct (recv closing set_closing w) as [v w1 | w1 | e w1];
      simpl in Hk; injection Hk as Hr Hc; unfold closed_not_ready in *;
      simpl; try (by rewrite Hr, Hc).
    destruct (once (sess w1)) eqn:Ho.
    + unfold bind. rewrite disconnect_once by done. simpl. by rewrite Hr, Hc.
    + intros _. pose proof (disconnect_not_ready w1 Ho) as Hd.
      unfold bind. by destruct (disconnect w1).
Qed.
(** ** Steps of the running session *)

Lemma sys_world_after_serve s o : sys_world (after_serve s o) = final o.
Proof. by destruct o as [[] w | w | e w]. Qed.

Lemma sys_world_after_listen s next o :
  sys_world (after_listen s next o) = final o.
Proof. by destruct o as [[] w | w | e w]. Qed.

(** What an enabled step is, action by action. *)
Lemma step_cases a s s' :
  step a s = Some s' →
  crashed s = false ∧
  match a with
  | Tick d =>
      (0 ≤ d)%Z ∧
      (serving s = true →
       (clock s + d ≤ armed s + heartbeat (sess (sys_world s)))%Z) ∧
      s' = mkSystem (sys_world s) (serving s) (listener s) false
             (clock s + d) (armed s)
  | Serve c =>
      serving s = true ∧ case_ready c s = true ∧
      s' = after_serve s (serve_iter c (clock s) (sys_world s))
  | ListenSelect =>
      listener s = AtSelect ∧
      s' = after_listen s InRead (listening_select (sys_world s))
  | ListenRead r =>
      listener s = InRead ∧
      s' = after_listen s AtSelect (listening_read r (sys_world s))
  | Publish e =>
      s' = mkSystem (station_push e (sys_world s)) (serving s) (listener s)
             false (clock s) (armed s)
  end.
Proof.
  unfold step. destruct (crashed s); [done |]. intros Hs. split; [done |].
  destruct a as [d | c | | r | e].
  - destruct (bool_decide (0 ≤ d)%Z) eqn:Hd; simpl in Hs; [| done].
    apply bool_decide_eq_true in Hd.
    destruct (serving s); simpl in Hs.
    + case_bool_decide; [| done]. by injection Hs as <-.
    + by injection Hs as <-.
  - destruct (serving s); simpl in Hs; [| done].
    destruct (case_ready c s); [| done]. by injection Hs as <-.
  - destruct (listener s); try done. by injection Hs as <-.
  - destruct (listener s); try done. by injection Hs as <-.
  - by injection Hs as <-.
Qed.

Lemma run_reachable tr s s' :
  reachable s → run tr s = Some s' → reachable s'.
Proof.
  revert s. induction tr as [|a tr IH]; intros s Hr; simpl.
  - by intros [= <-].
  - destruct (step a s) as [s1|] eqn:Hs; [| done].
    apply IH. by eapply reach_step.
Qed.

Lemma serve_iter_flags_other c now :
  c ≠ CaseRequest → c ≠ CaseHeartbeat → c ≠ CaseClosing →
  keeps flags (serve_iter c now).
Proof.
  intros H1 H2 H3. destruct c; try done; unfold serve_iter.
  - keeps_tac; try by apply keeps_write.
  - keeps_tac; by apply keeps_event_range.
Qed.

Lemma serve_iter_closing_stops now w w' :
  serve_iter CaseClosing now w ≠ Done Continue w'.
Proof.
  unfold serve_iter, bind.
  destruct (recv closing set_closing w) as [v w1 | w1 | e w1]; [| done..].
  by destruct (disconnect w1).
Qed.

Lemma serve_iter_closed c now w :
  c ≠ CaseClosing →
  closed (sess (final (serve_iter c now w))) = closed (sess w).
Proof.
  intros Hc. destruct c; try done.
  - unfold serve_iter, bind, gets. by destruct (ready (sess w)).
  - assert (keeps (λ w, closed (sess w)) (serve_iter CaseRequest now)) as Hk.
    { unfold serve_iter. apply keeps_bind; [keeps_tac |].
      intros [req|]; keeps_tac. apply keeps_closed_dispatch. }
    apply Hk.
  - by pose proof (serve_iter_flags_other CaseResponse now
                     ltac:(done) ltac:(done) ltac:(done) w) as [=].
  - by pose proof (serve_iter_flags_other CaseBroadcast now
                     ltac:(done) ltac:(done) ltac:(done) w) as [=].
Qed.

(** While [serve] is in its loop the session is not closed. *)
Lemma serving_not_closed s :
  reachable s → serving s = true → closed (sess (sys_world s)) = false.
Proof.
  induction 1 as [s (uuid & hb & c1 & c2 & c3 & c4 & p & t0 & ->)
                 | s a s' Hr IH Hs]; [done |].
  apply step_cases in Hs as [_ Hs].
  destruct a as [d | c | | r | e].
  - destruct Hs as (_ & _ & ->). simpl. exact IH.
  - destruct Hs as (Hsv & _ & ->). specialize (IH Hsv).
    pose proof (serve_iter_closing_stops (clock s) (sys_world s)) as Hstop.
    pose proof (serve_iter_closed c (clock s) (sys_world s)) as Hcl.
    destruct (serve_iter c (clock s) (sys_world s)) as [[] w | w | e w] eqn:Ho;
      simpl; try done.
    intros _. destruct (decide (c = CaseClosing)) as [-> | Hne].
    + by destruct (Hstop w).
    + by rewrite <- IH, <- (Hcl Hne).
  - destruct Hs as (_ & ->).
    pose proof (keeps_flags_listening_select (sys_world s)) as [= _ Hc].
    destruct (listening_select (sys_world s)) as [[] w | w | e w];
      simpl in *; rewrite Hc; exact IH.
  - destruct Hs as (_ & ->).
    pose proof (keeps_flags_listening_read r (sys_world s)) as [= _ Hc].
    destruct (listening_read r (sys_world s)) as [[] w | w | e w];
      simpl in *; rewrite Hc; exact IH.
  - rewrite Hs. simpl.
    pose proof (keeps_flags_station e (sys_world s)) as [= _ Hc].
    rewrite Hc. exact IH.
Qed.

Lemma step_closed_not_ready a s s' :
  step a s = Some s' →
  closed_not_ready (sys_world s) → closed_not_ready (sys_world s').
Proof.
  intros Hs Hi. apply step_cases in Hs as [_ Hs].
  destruct a as [d | c | | r | e].
  - by destruct Hs as (_ & _ & ->).
  - destruct Hs as (_ & _ & ->). rewrite sys_world_after_serve.
    by apply serve_iter_closed_not_ready.
  - destruct Hs as (_ & ->). rewrite sys_world_after_listen.
    pose proof (keeps_flags_listening_select (sys_world s)) as [= Hr Hc].
    unfold closed_not_ready in *. by rewrite Hr, Hc.
  - destruct Hs as (_ & ->). rewrite sys_world_after_listen.
    pose proof (keeps_flags_listening_read r (sys_world s)) as [= Hr Hc].
    unfold closed_not_ready in *. by rewrite Hr, Hc.
  - rewrite Hs. simpl.
    pose proof (keeps_flags_station e (sys_world s)) as [= Hr Hc].
    unfold closed_not_ready in *. by rewrite Hr, Hc.
Qed.

Lemma teardown_closed w : closed (sess (final (teardown w))) = true.
Proof.
  unfold teardown, teardown_body. cbn [seq].
  rewrite (bind_Done _ _ w tt (upd_sess (set_ready false) w)) by done.
  rewrite (bind_Done _ _ _ tt
             (upd_sess (set_closed true) (upd_sess (set_ready false) w)))
    by done.
  match goal with |- closed (sess (final (?m ?w'))) = true =>
    assert (keeps (λ w, closed (sess w)) m) as Hk by keeps_tac;
    exact (Hk w')
  end.
Qed.

Lemma ping_closed now w : closed (sess w) = true → ping now w = Done tt w.
Proof. intros Hc. unfold ping, bind, gets. by rewrite Hc. Qed.

(** After any number of statements of the teardown a closed session is
    not ready: [ready] is cleared first. *)
Lemma teardown_prefix_closed_not_ready k w :
  closed_not_ready w →
  closed_not_ready (final (seq (take k teardown_body) w)).
Proof.
  intros Hi. destruct k as [|k]; [done |].
  intros _. unfold teardown_body. cbn [take seq].
  rewrite (bind_Done _ _ w tt (upd_sess (set_ready false) w)) by done.
  match goal with |- ready (sess (final (?m ?w'))) = false =>
    assert (keeps (λ w, ready (sess w)) m) as Hk;
    [| exact (Hk w')]
  end.
  do 8 (destruct k as [|k]; [cbn [take seq]; keeps_tac |]).
  cbn [take seq]. keeps_tac.
Qed.

(** C10: in every reachable state a closed session is not ready.  The PING
    handler does nothing on a closed session; the teardown clears [ready]
    before it sets [closed], so a closed session is not ready after any
    number of its statements, and it leaves the session not ready and closed
    even when it is cut short. *)
Theorem closed_implies_not_ready :
  (∀ s, reachable s →
        closed (sess (sys_world s)) = true → ready (sess (sys_world s)) = false) ∧
  (∀ now w, closed (sess w) = true → ping now w = Done tt w) ∧
  (∀ k w, closed_not_ready w →
          closed_not_ready (final (seq (take k teardown_body) w))) ∧
  (∀ w, ready (sess (final (teardown w))) = false ∧
        closed (sess (final (teardown w))) = true).
Proof.
  split; [| split; [| split; [apply teardown_prefix_closed_not_ready |]]].
  - induction 1 as [s (uuid & hb & c1 & c2 & c3 & c4 & p & t0 & ->)
                   | s a s' Hr IH Hs]; [done |].
    by apply (step_closed_not_ready a s s').
  - apply ping_closed.
  - intros w. split; [apply teardown_not_ready | apply teardown_closed].
Qed.
(** ** Closing after the teardown *)

Lemma close_on_closed w :
  ch_closed (closing (sess w)) = true → close w = Panic SendOnClosedChannel w.
Proof. intros Hc. unfold close, send, chan_send. by rewrite Hc. Qed.

(** A teardown that ran to its end has closed the [closing] channel. *)
Lemma teardown_closes_closing w w' :
  teardown w = Done tt w' → ch_closed (closing (sess w')) = true.
Proof.
  unfold teardown, teardown_body. cbn [seq]. unfold bind at 1 2 3.
  unfold modify at 1 2, gets at 1, bind at 1, modify at 1.
  set (w3 := set_store _ _).
  unfold bind at 1, close_chan at 1.
  destruct (chan_close (closing (sess w3))) as [c|] eqn:Hc; [| done].
  assert (ch_closed c = true) as Hcl.
  { unfold chan_close in Hc. destruct (ch_closed (closing (sess w3))); [done |].
    by injection Hc as <-. }
  set (w4 := upd_sess (set_closing c) w3).
  match goal with |- ?m w4 = _ → _ =>
    assert (keeps (λ w, closing (sess w)) m) as Hk by keeps_tac;
    intros Hd; specialize (Hk w4); rewrite Hd in Hk
  end.
  simpl in Hk. by rewrite Hk.
Qed.

(** Once [disconnect] has run to its end for the first time, every later
    [close] panics. *)
Lemma close_after_disconnect w w' :
  once (sess w) = false → disconnect w = Done tt w' →
  close w' = Panic SendOnClosedChannel w'.
Proof.
  intros Ho Hd. apply close_on_closed.
  unfold disconnect, bind at 1, gets in Hd. rewrite Ho in Hd.
  rewrite (bind_Done _ _ w tt (upd_sess (set_once true) w)) in Hd by done.
  by apply teardown_closes_closing in Hd.
Qed.

(** ** Readiness comes from PING alone *)

Lemma final_bind {A B} (m : M A) (k : A → M B) w :
  final (bind m k w) =
  match m w with
  | Done a w' => final (k a w')
  | Parked w' | Panic _ w' => w'
  end.
Proof. unfold bind. by destruct (m w). Qed.

Lemma serve_iter_heartbeat now w :
  serve_iter CaseHeartbeat now w =
  Done Continue (if ready (sess w) then upd_sess (set_ready false) w else w).
Proof. unfold serve_iter, bind, gets. by destruct (ready (sess w)). Qed.

Lemma chan_recv_some {A} (c : chan A) :
  is_Some (chan_recv c) →
  (∃ v rest, ch_buf c = v :: rest) ∨ chan_recv c = Some (None, c).
Proof.
  unfold chan_recv. destruct (ch_buf c) as [|v rest]; [| by eauto].
  destruct (ch_closed c); [by right | by intros [? ?]].
Qed.

Lemma disconnect_stays_not_ready w :
  ready (sess w) = false → ready (sess (final (disconnect w))) = false.
Proof.
  intros Hr. destruct (once (sess w)) eqn:Ho.
  - by rewrite disconnect_once.
  - by apply disconnect_not_ready.
Qed.

Lemma serve_iter_ready_other c now w :
  c ≠ CaseRequest → c ≠ CaseHeartbeat → c ≠ CaseClosing →
  ready (sess (final (serve_iter c now w))) = ready (sess w).
Proof.
  intros H1 H2 H3.
  assert (flags (final (serve_iter c now w)) = flags w) as Hk
    by (by apply serve_iter_flags_other).
  unfold flags in Hk. congruence.
Qed.

Lemma serve_iter_ready_rises c now w :
  ready (sess w) = false →
  ready (sess (final (serve_iter c now w))) = true →
  c = CaseRequest ∧
  ∃ req, head (ch_buf (request (sess w))) = Some req ∧
         req_Method req = Method_PING.
Proof.
  intros Hr Hr'. destruct c.
  - rewrite serve_iter_heartbeat, Hr in Hr'. simpl in Hr'. congruence.
  - split; [done |]. unfold serve_iter in Hr'. rewrite final_bind in Hr'.
    unfold recv in Hr'. unfold chan_recv in Hr'.
    destruct (ch_buf (request (sess w))) as [|req rest] eqn:Hb.
    + destruct (ch_closed (request (sess w))); simpl in Hr'; congruence.
    + exists req. split; [done |].
      destruct (decide (req_Method req = Method_PING)) as [Hm | Hm]; [done |].
      rewrite final_bind in Hr'.
      match type of Hr' with context [dispatch req now ?w1] =>
        pose proof (keeps_flags_dispatch req now Hm w1) as [= Hk _];
        destruct (dispatch req now w1); simpl in *; congruence
      end.
  - rewrite serve_iter_ready_other in Hr' by done. congruence.
  - rewrite serve_iter_ready_other in Hr' by done. congruence.
  - unfold serve_iter in Hr'. rewrite final_bind in Hr'.
    pose proof (keeps_recv flags closing set_closing
                  ltac:(intros; reflexivity) w) as Hk.
    destruct (recv closing set_closing w) as [v w1 | w1 | e w1];
      simpl in Hk; injection Hk as Hk _; [| congruence..].
    rewrite final_bind in Hr'.
    pose proof (disconnect_stays_not_ready w1 ltac:(congruence)) as Hd.
    destruct (disconnect w1); simpl in *; congruence.
Qed.

Lemma step_ready_rises a s s' :
  step a s = Some s' →
  ready (sess (sys_world s)) = false →
  ready (sess (sys_world s')) = true →
  handles_ping a s.
Proof.
  intros Hs Hr Hr'. apply step_cases in Hs as [_ Hs].
  destruct a as [d | c | | r | e].
  - destruct Hs as (_ & _ & ->). simpl in Hr'. congruence.
  - destruct Hs as (_ & _ & ->). rewrite sys_world_after_serve in Hr'.
    destruct (serve_iter_ready_rises c _ _ Hr Hr') as [-> Hreq].
    by split.
  - destruct Hs as (_ & ->). rewrite sys_world_after_listen in Hr'.
    pose proof (keeps_flags_listening_select (sys_world s)) as [= Hk _].
    congruence.
  - destruct Hs as (_ & ->). rewrite sys_world_after_listen in Hr'.
    pose proof (keeps_flags_listening_read r (sys_world s)) as [= Hk _].
    congruence.
  - rewrite Hs in Hr'. simpl in Hr'.
    pose proof (keeps_flags_station e (sys_world s)) as [= Hk _].
    congruence.
Qed.

(** The state in which the PING handler leaves an open session whose
    outbound queue has room. *)
Lemma serve_iter_ping now w req rest :
  ch_buf (request (sess w)) = req :: rest →
  req_Method req = Method_PING →
  closed (sess w) = false →
  ready (sess (final (serve_iter CaseRequest now w))) = true ∧
  (can_send (response (sess w)) →
   serve_iter CaseRequest now w =
   Done Continue
     (upd_sess (set_response (pushed (response (sess w))
        (mkResponse (sess_id (sess w)) StatusOK StatusText_OK Method_PING
           (DataTime defaultDateFormat now))))
        (upd_sess (set_ready true)
           (upd_sess (set_request
              (mkChan (ch_cap (request (sess w))) rest
                 (ch_closed (request (sess w))))) w)))).
Proof.
  intros Hb Hm Hc.
  set (w1 := upd_sess (set_request
               (mkChan (ch_cap (request (sess w))) rest
                  (ch_closed (request (sess w))))) w).
  assert (serve_iter CaseRequest now w =
          bind (ping now) (λ _, ret Continue) w1) as ->.
  { unfold serve_iter. unfold bind at 1.
    rewrite (recv_head _ _ _ _ _ Hb). fold w1.
    unfold dispatch. by rewrite bool_decide_eq_true_2. }
  split.
  - rewrite final_bind.
    pose proof (ping_ready now w1) as Hp. simpl in Hp. rewrite Hc in Hp.
    by destruct (ping now w1).
  - intros Hs. assert (closed (sess w1) = false) as Hc1 by done.
    unfold ping, bind, gets, modify. rewrite Hc1. cbn [negb].
    by rewrite normal_can.
Qed.

(** C4: a session starts not ready; [ready] goes from false to true only in
    the step in which [serve] handles a PING request; and that step, in any
    reachable state, leaves [ready] true and queues a response with code 200,
    method PING and the time of handling, when the outbound queue takes
    it. *)
Theorem ready_only_by_ping :
  (∀ s, initial s → ready (sess (sys_world s)) = false) ∧
  (∀ a s s', step a s = Some s' →
     ready (sess (sys_world s)) = false →
     ready (sess (sys_world s')) = true →
     handles_ping a s) ∧
  (∀ s s', reachable s →
     handles_ping (Serve CaseRequest) s →
     step (Serve CaseRequest) s = Some s' →
     ready (sess (sys_world s')) = true ∧
     (can_send (response (sess (sys_world s))) →
      response (sess (sys_world s')) =
        pushed (response (sess (sys_world s)))
          (mkResponse (sess_id (sess (sys_world s))) StatusOK StatusText_OK
             Method_PING (DataTime defaultDateFormat (clock s))) ∧
      serving s' = true ∧ crashed s' = false)).
Proof.
  split; [| split].
  - by intros s (uuid & hb & c1 & c2 & c3 & c4 & p & t0 & ->).
  - apply step_ready_rises.
  - intros s s' Hr [_ (req & Hn & Hm)] Hs.
    apply step_cases in Hs as (_ & Hsv & _ & ->).
    pose proof (serving_not_closed s Hr Hsv) as Hc.
    unfold next_request in Hn.
    destruct (ch_buf (request (sess (sys_world s)))) as [|r rest] eqn:Hb;
      [done |]. injection Hn as ->.
    destruct (serve_iter_ping (clock s) (sys_world s) req rest Hb Hm Hc)
      as [Hrdy Hrep].
    rewrite sys_world_after_serve. split; [done |].
    intros Hcan. by rewrite (Hrep Hcan).
Qed.
(** ** The heartbeat timer *)

Lemma keeps_settled_listening_read r : keeps settled (listening_read r).
Proof. unfold listening_read, error, close. keeps_tac. Qed.

Lemma keeps_settled_listening_select : keeps settled listening_select.
Proof.
  intros w. unfold listening_select.
  by destruct (chan_recv _) as [[v c]|].
Qed.

Lemma keeps_settled_station e w : settled (station_push e w) = settled w.
Proof. unfold station_push. by destruct (chan_send _ _). Qed.

Lemma settled_parts w w' :
  settled w' = settled w →
  ready (sess w') = ready (sess w) ∧ torn w' = torn w ∧
  heartbeat (sess w') = heartbeat (sess w).
Proof.
  unfold settled. intros Hk.
  split; [exact (f_equal (λ x, x.1.1.1) Hk) |].
  split; [exact (f_equal (λ x, x.1.2) Hk) | exact (f_equal snd Hk)].
Qed.

Lemma after_listen_fields s next o :
  serving (after_listen s next o) = serving s ∧
  armed (after_listen s next o) = armed s ∧
  clock (after_listen s next o) = clock s.
Proof. by destruct o as [[] w | w | e w]. Qed.

Lemma step_heartbeat s s' :
  step (Serve CaseHeartbeat) s = Some s' →
  (armed s + heartbeat (sess (sys_world s)) ≤ clock s)%Z ∧
  s' = mkSystem
         (if ready (sess (sys_world s))
          then upd_sess (set_ready false) (sys_world s) else sys_world s)
         true (listener s) false (clock s) (clock s).
Proof.
  intros Hs. apply step_cases in Hs as (_ & _ & Hrdy & ->).
  unfold case_ready in Hrdy. apply bool_decide_eq_true in Hrdy.
  split; [done |]. by rewrite serve_iter_heartbeat.
Qed.

(** The state of a quiet run that began at [s0] with the timer pending:
    [serve] is still in its loop and nothing was torn down; either the timer
    has fired, and the session is not ready, or it is still the timer of
    [s0] and its deadline has not passed. *)
Lemma quiet_step a s0 s s' :
  (∀ c, a = Serve c → c = CaseHeartbeat) →
  step a s = Some s' →
  let hb0 := heartbeat (sess (sys_world s0)) in
  serving s = true ∧ heartbeat (sess (sys_world s)) = hb0 ∧
    torn (sys_world s) = torn (sys_world s0) ∧
    (ready (sess (sys_world s)) = false ∨
     (armed s = armed s0 ∧ (clock s ≤ armed s0 + hb0)%Z)) →
  serving s' = true ∧ heartbeat (sess (sys_world s')) = hb0 ∧
    torn (sys_world s') = torn (sys_world s0) ∧
    (ready (sess (sys_world s')) = false ∨
     (armed s' = armed s0 ∧ (clock s' ≤ armed s0 + hb0)%Z)).
Proof.
  intros Hq Hs hb0 (Hsv & Hhb & Ht & Hd).
  destruct a as [d | c | | r | e].
  - apply step_cases in Hs as (_ & Hd0 & Hcap & ->). simpl.
    repeat split; try done.
    destruct Hd as [Hr | [Ha Hc]]; [by left | right].
    split; [done |]. specialize (Hcap Hsv). lia.
  - rewrite (Hq c eq_refl) in Hs. apply step_heartbeat in Hs as [_ ->].
    simpl. destruct (ready (sess (sys_world s))) eqn:Hr; simpl.
    + repeat split; try done. by left.
    + repeat split; try done. by left.
  - apply step_cases in Hs as (_ & _ & ->).
    destruct (settled_parts _ _ (keeps_settled_listening_select (sys_world s)))
      as (Hr' & Ht' & Hh').
    destruct (after_listen_fields s InRead (listening_select (sys_world s)))
      as (-> & -> & ->).
    rewrite sys_world_after_listen. by rewrite Hr', Ht', Hh'.
  - apply step_cases in Hs as (_ & _ & ->).
    destruct (settled_parts _ _ (keeps_settled_listening_read r (sys_world s)))
      as (Hr' & Ht' & Hh').
    destruct (after_listen_fields s AtSelect (listening_read r (sys_world s)))
      as (-> & -> & ->).
    rewrite sys_world_after_listen. by rewrite Hr', Ht', Hh'.
  - apply step_cases in Hs as (_ & ->). simpl.
    destruct (settled_parts _ _ (keeps_settled_station e (sys_world s)))
      as (Hr' & Ht' & Hh').
    by rewrite Hr', Ht', Hh'.
Qed.

Lemma quiet_run tr s0 s s' :
  quiet tr →
  run tr s = Some s' →
  let hb0 := heartbeat (sess (sys_world s0)) in
  serving s = true ∧ heartbeat (sess (sys_world s)) = hb0 ∧
    torn (sys_world s) = torn (sys_world s0) ∧
    (ready (sess (sys_world s)) = false ∨
     (armed s = armed s0 ∧ (clock s ≤ armed s0 + hb0)%Z)) →
  serving s' = true ∧ heartbeat (sess (sys_world s')) = hb0 ∧
    torn (sys_world s') = torn (sys_world s0) ∧
    (ready (sess (sys_world s')) = false ∨
     (armed s' = armed s0 ∧ (clock s' ≤ armed s0 + hb0)%Z)).
Proof.
  revert s. induction tr as [|a tr IH]; intros s Hq Hrun hb0 Hinv; simpl in *.
  - by injection Hrun as <-.
  - destruct (step a s) as [s1|] eqn:Hs; [| done].
    apply Forall_cons in Hq as [Ha Hq].
    apply (IH s1 Hq Hrun). by apply (quiet_step a s0 s s1).
Qed.

Lemma is_ping_turn_spec a s : is_ping_turn a s = true ↔ handles_ping a s.
Proof.
  unfold is_ping_turn, handles_ping. split.
  - destruct a as [| [] | | |]; try done.
    destruct (next_request s) as [req|]; [| done].
    intros Hm. apply bool_decide_eq_true in Hm. split; [done | by exists req].
  - intros [-> (req & -> & Hm)]. by apply bool_decide_eq_true.
Qed.

(** C5, as the code has it: when the timer of a turn of the loop fires,
    the session is left not ready and nothing else changes: it is not
    closed, not deregistered, its connection stays open and [serve] goes on.
    Every turn after which [serve] goes on creates a new timer.  So, from a
    state in which [serve] waits on a timer that has not fired, once more than
    the heartbeat interval has passed without [serve] taking anything from
    its queues, the session is not ready, and nothing was torn down. *)
Theorem heartbeat_soft_timeout :
  (∀ s s', step (Serve CaseHeartbeat) s = Some s' →
     (armed s + heartbeat (sess (sys_world s)) ≤ clock s)%Z ∧
     ready (sess (sys_world s')) = false ∧
     sys_world s' =
       (if ready (sess (sys_world s))
        then upd_sess (set_ready false) (sys_world s) else sys_world s) ∧
     torn (sys_world s') = torn (sys_world s) ∧
     serving s' = true ∧ crashed s' = false ∧ listener s' = listener s) ∧
  (∀ c s s', step (Serve c) s = Some s' →
     serving s' = true → armed s' = clock s') ∧
  (∀ tr s s', run tr s = Some s' →
     quiet tr →
     serving s = true →
     (clock s ≤ armed s + heartbeat (sess (sys_world s)))%Z →
     (armed s + heartbeat (sess (sys_world s)) < clock s')%Z →
     ready (sess (sys_world s')) = false ∧
     torn (sys_world s') = torn (sys_world s) ∧
     serving s' = true).
Proof.
  split; [| split].
  - intros s s' Hs. apply step_heartbeat in Hs as [Hd ->]. simpl.
    split; [done |]. by destruct (ready (sess (sys_world s))) eqn:Hr.
  - intros c s s' Hs Hsv. apply step_cases in Hs as (_ & _ & _ & ->).
    by destruct (serve_iter c (clock s) (sys_world s)) as [[] w | w | e w].
  - intros tr s s' Hrun Hq Hsv Hc Hlate.
    destruct (quiet_run tr s s s' Hq Hrun) as (Hsv' & _ & Ht & Hd).
    { repeat split; try done. by right. }
    split; [| done]. destruct Hd as [Hr | [_ Hle]]; [done | lia].
Qed.

(** ** More about the listener *)

(** X1: when [ReadJSON] fails, the listener sends the closing signal and
    returns; it first queues an error response carrying the text of the
    error, unless the error is a close error with code 1000 (normal closure)
    or 1005 (no status received).  An error that is not a close error is
    never silent. *)
Theorem listening_read_error (w : world) (err : go_error) :
  let silent := isCloseError err = CloseNormalClosure ∨
                isCloseError err = CloseNoStatusReceived in
  let reported :=
    upd_sess (set_response (pushed (response (sess w))
       (mkResponse (sess_id (sess w)) StatusBadRequest (Error err) 0 DataNil)))
      w in
  (silent → can_send (closing (sess w)) →
   listening_read (inl err) w =
   Done Return (upd_sess (set_closing (pushed (closing (sess w)) ())) w)) ∧
  (¬ silent → can_send (response (sess w)) → can_send (closing (sess w)) →
   listening_read (inl err) w =
   Done Return
     (upd_sess (set_closing (pushed (closing (sess w)) ())) reported)) ∧
  (∀ text, err = OtherError text → ¬ silent).
Proof.
  intros silent reported. unfold listening_read. split; [| split].
  - intros Hs Hc.
    assert (bool_decide (isCloseError err = CloseNormalClosure)
            || bool_decide (isCloseError err = CloseNoStatusReceived) = true)
      as ->.
    { apply orb_true_iff. destruct Hs as [Hs | Hs]; [left | right];
        by apply bool_decide_eq_true. }
    unfold bind, ret, close. by rewrite send_can.
  - intros Hs Hr Hc.
    assert (bool_decide (isCloseError err = CloseNormalClosure)
            || bool_decide (isCloseError err = CloseNoStatusReceived) = false)
      as ->.
    { apply orb_false_iff. split; apply bool_decide_eq_false; intros He;
        apply Hs; [by left | by right]. }
    unfold bind. rewrite error_can by done. unfold close.
    by rewrite send_can.
  - intros text -> [Hs | Hs]; by vm_compute in Hs.
Qed.

Lemma keeps_listener_frame_read r : keeps listener_frame (listening_read r).
Proof. unfold listening_read, error, close. keeps_tac. Qed.

Lemma keeps_listener_frame_select : keeps listener_frame listening_select.
Proof.
  intros w. unfold listening_select.
  by destruct (chan_recv _) as [[v c]|].
Qed.

(** X2: whatever it reads and however its turn ends (return, park or
    panic), the listener changes nothing of the session but the inbound,
    outbound and closing queues: not [ready], [closed] or the one-shot guard,
    not the subscriptions, the broadcast queue or the connection, and not the
    registry. *)
Theorem listening_changes_queues_only (w : world)
    (r : go_error + WebSocketRequest) :
  listener_frame (final (listening_read r w)) = listener_frame w ∧
  listener_frame (final (listening_select w)) = listener_frame w.
Proof.
  split; [apply keeps_listener_frame_read | apply keeps_listener_frame_select].
Qed.

(** X3: the [select] of the listener receives from the same [closing]
    channel as [serve].  When the listener is at its [select] and one signal
    is pending, the listener may take it: it returns, the channel is empty
    again, so that [serve] cannot take its closing case, and the session is
    left as it was, not torn down. *)
Theorem listener_takes_closing_signal (s : system) :
  crashed s = false →
  listener s = AtSelect →
  ch_buf (closing (sess (sys_world s))) = [()] →
  ch_closed (closing (sess (sys_world s))) = false →
  ∃ s', step ListenSelect s = Some s' ∧
        listener s' = ListenerGone ∧
        case_ready CaseClosing s' = false ∧
        serving s' = serving s ∧
        listener_frame (sys_world s') = listener_frame (sys_world s).
Proof.
  intros Hcr Hl Hb Hc. unfold step. rewrite Hcr, Hl.
  eexists. split; [done |].
  unfold listening_select, chan_recv. rewrite Hb. simpl.
  split; [done |]. split; [| done].
  unfold case_ready. simpl. apply bool_decide_eq_false.
  unfold chan_recv. simpl. rewrite Hc. by intros [? ?].
Qed.

(** ** More about the handlers of [serve] *)

(** X4: when the params of a SUBSCRIBE or UNSUBSCRIBE request do not
    decode, the handler queues an error response with the text of the
    decoding error and sends the closing signal; it leaves the subscriptions
    and the flags of the session as they were, whatever its outcome. *)
Theorem decode_failure_closes (w : world) (raw : RawMessage) (err : string) :
  json_Unmarshal raw = inl err →
  let refused :=
    upd_sess (set_closing (pushed (closing (sess w)) ()))
      (upd_sess (set_response (pushed (response (sess w))
         (mkResponse (sess_id (sess w)) StatusBadRequest err 0 DataNil))) w) in
  subscriptions (sess (final (subscribe (Some raw) w)))
    = subscriptions (sess w) ∧
  subscriptions (sess (final (unsubscribe (Some raw) w)))
    = subscriptions (sess w) ∧
  flags (final (subscribe (Some raw) w)) = flags w ∧
  flags (final (unsubscribe (Some raw) w)) = flags w ∧
  (can_send (response (sess w)) → can_send (closing (sess w)) →
   subscribe (Some raw) w = Done tt refused ∧
   unsubscribe (Some raw) w = Done tt refused).
Proof.
  intros Hj refused.
  assert (keeps (λ w, subscriptions (sess w))
            (bind (error StatusBadRequest err) (λ _, close))) as Hk.
  { unfold error, close. keeps_tac. }
  split; [| split; [| split; [| split]]].
  - unfold subscribe. rewrite Hj. apply Hk.
  - unfold unsubscribe. rewrite Hj. apply Hk.
  - apply keeps_flags_subscribe.
  - apply keeps_flags_unsubscribe.
  - intros Hr Hc.
    assert (bind (error StatusBadRequest err) (λ _, close) w = Done tt refused)
      as Hrun.
    { unfold bind. rewrite error_can by done. unfold close.
      by rewrite send_can. }
    unfold subscribe, unsubscribe. by rewrite Hj.
Qed.

(** X5: a request whose method is none of PING, SUBSCRIBE, UNSUBSCRIBE and
    DISCONNECT is answered with an error response that names the method
    number; the turn changes nothing else but the two queues it takes from
    and sends on, and [serve] goes on. *)
Theorem unknown_method_reply (w : world) (req : WebSocketRequest)
    (rest : list WebSocketRequest) (now : Z) :
  ch_buf (request (sess w)) = req :: rest →
  req_Method req ≠ Method_PING → req_Method req ≠ Method_SUBSCRIBE →
  req_Method req ≠ Method_UNSUBSCRIBE → req_Method req ≠ Method_DISCONNECT →
  can_send (response (sess w)) →
  serve_iter CaseRequest now w =
  Done Continue
    (upd_sess (set_response (pushed (response (sess w))
        (mkResponse (sess_id (sess w)) StatusBadRequest
           ("invalid method: " +:+ pretty (req_Method req)) 0 DataNil)))
       (upd_sess (set_request
          (mkChan (ch_cap (request (sess w))) rest
             (ch_closed (request (sess w))))) w)).
Proof.
  intros Hb H0 H1 H2 H3 Hc. unfold serve_iter. unfold bind at 1.
  rewrite (recv_head _ _ _ _ _ Hb). unfold dispatch.
  rewrite !bool_decide_eq_false_2 by done.
  unfold bind. by rewrite error_can.
Qed.

Lemma teardown_store w :
  store (final (teardown w)) = dropSession (sess_id (sess w)) (store w).
Proof.
  unfold teardown, teardown_body. cbn [seq].
  rewrite (bind_Done _ _ w tt (upd_sess (set_ready false) w)) by done.
  rewrite (bind_Done _ _ _ tt
             (upd_sess (set_closed true) (upd_sess (set_ready false) w)))
    by done.
  set (w2 := upd_sess (set_closed true) (upd_sess (set_ready false) w)).
  rewrite (bind_Done _ _ w2 tt
             (set_store (dropSession (sess_id (sess w)) (store w)) w2))
    by done.
  match goal with |- store (final (?m ?w')) = _ =>
    assert (keeps store m) as Hk by keeps_tac;
    exact (Hk w')
  end.
Qed.

Lemma teardown_once w : once (sess (final (teardown w))) = once (sess w).
Proof.
  assert (keeps (λ w, once (sess w)) teardown) as Hk.
  { unfold teardown, teardown_body. cbn [seq]. keeps_tac. }
  apply Hk.
Qed.

(** X6: on a session whose teardown has not run and whose four channels
    are open, [disconnect] runs to its end: the session is not ready, closed
    and guarded against a second run, its id is dropped from the registry,
    the four channels are closed, and the connection is closed and set to
    nil.  What was still in the outbound queue stays there: nothing is written
    to the connection by the teardown, and the subscriptions are kept. *)
Theorem disconnect_tears_down (w : world) :
  once (sess w) = false →
  ch_closed (closing (sess w)) = false →
  ch_closed (request (sess w)) = false →
  ch_closed (response (sess w)) = false →
  ch_closed (broadcast (sess w)) = false →
  ∃ w', disconnect w = Done tt w' ∧
    ready (sess w') = false ∧ closed (sess w') = true ∧
    once (sess w') = true ∧
    store w' = dropSession (sess_id (sess w)) (store w) ∧
    ch_closed (closing (sess w')) = true ∧
    ch_closed (request (sess w')) = true ∧
    ch_closed (response (sess w')) = true ∧
    ch_closed (broadcast (sess w')) = true ∧
    ch_buf (response (sess w')) = ch_buf (response (sess w)) ∧
    tr_written (wire w') = tr_written (wire w) ∧
    tr_closed (wire w') = conn (sess w) || tr_closed (wire w) ∧
    conn (sess w') = false ∧
    subscriptions (sess w') = subscriptions (sess w).
Proof.
  intros Ho H1 H2 H3 H4.
  unfold disconnect, teardown, teardown_body. cbn [seq].
  unfold bind, gets, modify, close_chan, chan_close, ret. simpl.
  rewrite Ho; simpl. rewrite H1; simpl. rewrite H2; simpl.
  rewrite H3; simpl. rewrite H4; simpl.
  destruct (conn (sess w)) eqn:Hc; simpl.
  - eexists. split; [done |]. by simpl.
  - eexists. split; [done |]. by simpl.
Qed.

(** X7: once [disconnect] has run to its end, running it again changes
    nothing and does not panic: the one-shot guard holds. *)
Theorem disconnect_idempotent (w w' : world) :
  disconnect w = Done tt w' → disconnect w' = Done tt w'.
Proof.
  intros Hd. apply disconnect_once.
  destruct (once (sess w)) eqn:Ho.
  - rewrite disconnect_once in Hd by done. by injection Hd as <-.
  - unfold disconnect, bind at 1, gets in Hd. rewrite Ho in Hd.
    rewrite (bind_Done _ _ w tt (upd_sess (set_once true) w)) in Hd by done.
    pose proof (teardown_once (upd_sess (set_once true) w)) as Hk.
    by rewrite Hd in Hk.
Qed.

Lemma bind_never_returns {A} (m : M A) (k : A → M loop_ctl) w w' :
  (∀ a w1, k a w1 ≠ Done Return w') → bind m k w ≠ Done Return w'.
Proof.
  intros Hk. unfold bind. destruct (m w) as [a w1 | w1 | e w1]; [| done..].
  apply Hk.
Qed.

(** X8: the loop of [serve] ends only on the closing signal: no other case
    of its [select] makes it return.  When it does return, on a session whose
    teardown had not run, the session is closed and not ready and its id is
    no longer registered. *)
Theorem serve_returns_only_on_closing (c : select_case) (now : Z)
    (w w' : world) :
  serve_iter c now w = Done Return w' →
  c = CaseClosing ∧
  (once (sess w) = false →
   closed (sess w') = true ∧ ready (sess w') = false ∧
   verifySession (sess_id (sess w)) (store w') = false).
Proof.
  intros Hs. destruct c; unfold serve_iter in Hs.
  - by apply bind_never_returns in Hs; [| intros; apply bind_never_returns].
  - by apply bind_never_returns in Hs; [| intros; apply bind_never_returns].
  - by apply bind_never_returns in Hs; [| intros; apply bind_never_returns].
  - by apply bind_never_returns in Hs; [| intros; apply bind_never_returns].
  - split; [done |]. intros Ho. unfold bind at 1 in Hs.
    pose proof (keeps_recv (λ w, (once (sess w), sess_id (sess w), store w))
                  closing set_closing ltac:(intros; reflexivity) w) as Hk.
    destruct (recv closing set_closing w) as [v w1 | w1 | e w1]; [| done..].
    simpl in Hk. injection Hk as Ho1 Hid Hst.
    unfold bind in Hs. destruct (disconnect w1) as [[] w2 | |] eqn:Hd; [| done..].
    injection Hs as <-.
    unfold disconnect, bind at 1, gets in Hd. rewrite Ho1, Ho in Hd.
    rewrite (bind_Done _ _ w1 tt (upd_sess (set_once true) w1)) in Hd by done.
    pose proof (teardown_closed (upd_sess (set_once true) w1)) as Hc.
    pose proof (teardown_not_ready (upd_sess (set_once true) w1)) as Hr.
    pose proof (teardown_store (upd_sess (set_once true) w1)) as Hsto.
    rewrite Hd in Hc, Hr, Hsto. simpl in Hc, Hr, Hsto.
    split; [done |]. split; [done |].
    rewrite Hsto, Hid. unfold verifySession, dropSession.
    by rewrite lookup_delete_eq.
Qed.

Lemma delete_add_subjects subjects (m : gmap subject bool) :
  delete_subjects subjects (add_subjects subjects m)
  = delete_subjects subjects m.
Proof.
  apply map_eq. intros k.
  rewrite !delete_subjects_lookup, add_subjects_lookup.
  by destruct (decide (k ∈ subjects)).
Qed.

(** X9: an UNSUBSCRIBE with the params of an earlier SUBSCRIBE removes
    exactly what these params name: the subscriptions are those from before
    the SUBSCRIBE without the named patterns, so none of them stays
    subscribed, and when none of them was subscribed before, the set is back
    to what it was. *)
Theorem subscribe_then_unsubscribe (w : world) (raw : RawMessage)
    (subjects : list subject) :
  json_Unmarshal raw = inr subjects →
  let m := subscriptions (sess w) in
  let after_both :=
    subscriptions
      (sess (final (unsubscribe (Some raw) (final (subscribe (Some raw) w))))) in
  after_both = delete_subjects subjects m ∧
  (∀ s, s ∈ subjects → after_both !! s = None) ∧
  (∀ s, s ∉ subjects → after_both !! s = m !! s) ∧
  ((∀ s, s ∈ subjects → s ∉ dom m) → after_both = m).
Proof.
  intros Hj m after_both.
  assert (after_both = delete_subjects subjects m) as Heq.
  { unfold after_both.
    rewrite (unsubscribe_subscriptions raw subjects _ Hj).
    rewrite (subscribe_subscriptions raw subjects _ Hj).
    apply delete_add_subjects. }
  split; [done |]. rewrite Heq. split; [| split].
  - intros s Hs. rewrite delete_subjects_lookup. by rewrite decide_True.
  - intros s Hs. rewrite delete_subjects_lookup. by rewrite decide_False.
  - apply delete_subjects_absent.
Qed.

(** X10: [serve] answers on the outbound queue that it alone takes from.
    When that queue is open and has no room (an unbuffered queue never has),
    the turn that handles a PING sets [ready] and then parks [serve] in the
    send of the reply: nothing is queued, and the turn does not end. *)
Theorem ping_parks_on_full_queue (w : world) (req : WebSocketRequest)
    (rest : list WebSocketRequest) (now : Z) :
  ch_buf (request (sess w)) = req :: rest →
  req_Method req = Method_PING →
  closed (sess w) = false →
  ch_closed (response (sess w)) = false →
  (ch_cap (response (sess w)) ≤ length (ch_buf (response (sess w))))%nat →
  serve_iter CaseRequest now w =
  Parked (upd_sess (set_ready true)
            (upd_sess (set_request
               (mkChan (ch_cap (request (sess w))) rest
                  (ch_closed (request (sess w))))) w)).
Proof.
  intros Hb Hm Hc Ho Hfull. unfold serve_iter. unfold bind at 1.
  rewrite (recv_head _ _ _ _ _ Hb). unfold dispatch.
  rewrite bool_decide_eq_true_2 by done.
  unfold ping, bind, gets, modify, normal, send, chan_send. simpl.
  rewrite Hc. simpl. unfold bind, gets. simpl. rewrite Ho.
  by apply Nat.ltb_ge in Hfull as ->.
Qed.

(** X11: a DISCONNECT request is served in two turns.  The turn that takes
    the request only sends the closing signal, and [serve] goes on; when the
    [closing] channel has no room (an unbuffered one never has) that send
    parks [serve].  The turn that then takes the signal tears the session
    down and makes [serve] return. *)
Theorem disconnect_request_two_turns (w : world) (req : WebSocketRequest)
    (rest : list WebSocketRequest) (now now' : Z) :
  ch_buf (request (sess w)) = req :: rest →
  req_Method req = Method_DISCONNECT →
  let w0 := upd_sess (set_request
              (mkChan (ch_cap (request (sess w))) rest
                 (ch_closed (request (sess w))))) w in
  let w1 := upd_sess (set_closing (pushed (closing (sess w)) ())) w0 in
  (ch_closed (closing (sess w)) = false →
   (ch_cap (closing (sess w)) ≤ length (ch_buf (closing (sess w))))%nat →
   serve_iter CaseRequest now w = Parked w0) ∧
  (ch_buf (closing (sess w)) = [] → can_send (closing (sess w)) →
   once (sess w) = false →
   ch_closed (request (sess w)) = false →
   ch_closed (response (sess w)) = false →
   ch_closed (broadcast (sess w)) = false →
   serve_iter CaseRequest now w = Done Continue w1 ∧
   ∃ w2, serve_iter CaseClosing now' w1 = Done Return w2 ∧
         closed (sess w2) = true ∧ ready (sess w2) = false ∧
         verifySession (sess_id (sess w)) (store w2) = false ∧
         tr_closed (wire w2) = conn (sess w) || tr_closed (wire w)).
Proof.
  intros Hb Hm w0 w1.
  assert (serve_iter CaseRequest now w = bind close (λ _, ret Continue) w0)
    as Hturn.
  { unfold serve_iter. unfold bind at 1.
    rewrite (recv_head _ _ _ _ _ Hb). fold w0. unfold dispatch.
    rewrite Hm. by rewrite !bool_decide_eq_false_2 by done. }
  split.
  - intros Ho Hfull. rewrite Hturn. unfold bind, close, send, chan_send.
    simpl. rewrite Ho. by apply Nat.ltb_ge in Hfull as ->.
  - intros Hempty Hcan Honce H2 H3 H4.
    assert (serve_iter CaseRequest now w = Done Continue w1) as Hone.
    { rewrite Hturn. unfold bind, close. by rewrite send_can. }
    split; [done |].
    set (w1' := upd_sess (set_closing
                  (mkChan (ch_cap (closing (sess w))) [] false)) w0).
    assert (recv closing set_closing w1 = Done (Some ()) w1') as Hrecv.
    { unfold recv, chan_recv, w1. simpl. by rewrite Hempty. }
    destruct (disconnect_tears_down w1') as (w2 & Hd & Hr & Hc & _ & Hst & _ &
        _ & _ & _ & _ & _ & Htr & _); try done.
    exists w2. split.
    + unfold serve_iter. unfold bind at 1. rewrite Hrecv.
      unfold bind. by rewrite Hd.
    + split; [done |]. split; [done |]. split; [| done].
      rewrite Hst. unfold verifySession, dropSession. simpl.
      by rewrite lookup_delete_eq.
Qed.

(** ** Package [redis] *)

Lemma wrap64_small (z : Z) :
  (- 2 ^ 63 ≤ z < 2 ^ 63)%Z → wrap64 z = z.
Proof.
  intros Hz. unfold wrap64. rewrite Z.mod_small; lia.
Qed.

(** X12: for every value [rand.Intn(86400)] can return, [RandomExpiry] is
    that number of whole seconds, computed without overflow: at least 0 and
    less than 24 hours. *)
Theorem RandomExpiry_range (n : Z) :
  (0 ≤ n < 86400)%Z →
  RandomExpiry n = (n * Second)%Z ∧
  (0 ≤ RandomExpiry n < 24 * 3600 * Second)%Z.
Proof.
  intros Hn. unfold RandomExpiry, Second. rewrite wrap64_small; lia.
Qed.


(** ** The frames on the connection *)

Lemma extends_wire_refl w : extends_wire w w.
Proof. split; [done |]. exists []. by rewrite app_nil_r. Qed.

Lemma extends_wire_trans w1 w2 w3 :
  extends_wire w1 w2 → extends_wire w2 w3 → extends_wire w1 w3.
Proof.
  intros [Hi1 (l1 & H1 & F1)] [Hi2 (l2 & H2 & F2)].
  split; [congruence |]. exists (l1 ++ l2).
  split; [by rewrite H2, H1, app_assoc |].
  apply Forall_app. split; [done |]. by rewrite <- Hi1.
Qed.

Lemma extends_wire_written w w' : written w' = written w → extends_wire w w'.
Proof.
  unfold written. intros Hk.
  pose proof (f_equal fst Hk) as Hid. pose proof (f_equal snd Hk) as Hw.
  simpl in *. split; [done |]. exists []. by rewrite app_nil_r.
Qed.

Lemma write_extends_wire v w : extends_wire w (final (write v w)).
Proof.
  unfold write, WriteJSON, bind, gets, modify, ret, panic.
  destruct (ready (sess w)); [| apply extends_wire_refl].
  destruct (conn (sess w)); [| apply extends_wire_refl].
  destruct (tr_closed (wire w)); [apply extends_wire_refl |].
  simpl. split; [done |]. exists [stamped (sess_id (sess w)) v].
  split; [done |]. by repeat constructor.
Qed.

Lemma keeps_written_dispatch req now : keeps written (dispatch req now).
Proof.
  unfold dispatch, ping, subscribe, unsubscribe, close, error, normal, topics.
  keeps_tac.
Qed.

Lemma keeps_written_disconnect : keeps written disconnect.
Proof.
  unfold disconnect, teardown, teardown_body. cbn [seq]. keeps_tac.
Qed.

Lemma serve_iter_extends_wire c now w :
  extends_wire w (final (serve_iter c now w)).
Proof.
  destruct c.
  - apply extends_wire_written. rewrite serve_iter_heartbeat. simpl.
    by destruct (ready (sess w)).
  - apply extends_wire_written.
    assert (keeps written (serve_iter CaseRequest now)) as Hk.
    { unfold serve_iter. apply keeps_bind; [keeps_tac |].
      intros [req|]; keeps_tac. apply keeps_written_dispatch. }
    apply Hk.
  - unfold serve_iter. rewrite final_bind.
    pose proof (keeps_recv written response set_response
                  ltac:(intros; reflexivity) w) as Hk.
    destruct (recv response set_response w) as [[v|] w1 | w1 | e w1];
      simpl in Hk; try (by apply extends_wire_written).
    apply (extends_wire_trans _ w1); [by apply extends_wire_written |].
    rewrite final_bind.
    pose proof (write_extends_wire v w1) as Hw.
    unfold bind. destruct (write v w1) as [o w2 | w2 | e w2]; exact Hw.
  - apply extends_wire_written.
    assert (keeps written (serve_iter CaseBroadcast now)) as Hk.
    { unfold serve_iter. keeps_tac; by apply keeps_event_range. }
    apply Hk.
  - apply extends_wire_written.
    assert (keeps written (serve_iter CaseClosing now)) as Hk.
    { unfold serve_iter. apply keeps_bind; [keeps_tac |]. intros _.
      apply keeps_bind; [apply keeps_written_disconnect | intros; keeps_tac]. }
    apply Hk.
Qed.

Lemma keeps_written_listening_read r : keeps written (listening_read r).
Proof. unfold listening_read, error, close. keeps_tac. Qed.

Lemma keeps_written_listening_select : keeps written listening_select.
Proof.
  intros w. unfold listening_select.
  by destruct (chan_recv _) as [[v c]|].
Qed.

Lemma step_extends_wire a s s' :
  step a s = Some s' → extends_wire (sys_world s) (sys_world s').
Proof.
  intros Hs. apply step_cases in Hs as [_ Hs].
  destruct a as [d | c | | r | e].
  - destruct Hs as (_ & _ & ->). apply extends_wire_refl.
  - destruct Hs as (_ & _ & ->). rewrite sys_world_after_serve.
    apply serve_iter_extends_wire.
  - destruct Hs as (_ & ->). rewrite sys_world_after_listen.
    apply extends_wire_written, keeps_written_listening_select.
  - destruct Hs as (_ & ->). rewrite sys_world_after_listen.
    apply extends_wire_written, keeps_written_listening_read.
  - rewrite Hs. simpl. apply extends_wire_written.
    unfold station_push, written. by destruct (chan_send _ _).
Qed.

(** X14: the connection is append-only and every frame on it carries the
    id of the session.  A step of the running session leaves the frames
    written so far in place and adds only frames stamped with the session's
    id, whatever id the queued response had; so in every reachable state all
    frames written carry the id of the session, which never changes. *)
Theorem frames_carry_session_id :
  (∀ a s s', step a s = Some s' → extends_wire (sys_world s) (sys_world s')) ∧
  (∀ s, reachable s →
        Forall (λ v, resp_ID v = sess_id (sess (sys_world s)))
          (tr_written (wire (sys_world s)))).
Proof.
  split; [apply step_extends_wire |].
  induction 1 as [s (uuid & hb & c1 & c2 & c3 & c4 & p & t0 & ->)
                 | s a s' Hr IH Hs]; [by constructor |].
  destruct (step_extends_wire a s s' Hs) as [Hid (more & Hw & Hm)].
  rewrite Hw, Hid. apply Forall_app. by split.
Qed.

(** X15: once a reachable session is closed, [serve] has left its loop,
    and no step writes to the connection or reopens the session any more:
    responses still queued are never delivered. *)
Theorem no_write_after_close (s : system) :
  reachable s →
  closed (sess (sys_world s)) = true →
  serving s = false ∧
  ∀ a s', step a s = Some s' →
          tr_written (wire (sys_world s')) = tr_written (wire (sys_world s)) ∧
          closed (sess (sys_world s')) = true ∧
          serving s' = false.
Proof.
  intros Hr Hc.
  assert (serving s = false) as Hsv.
  { destruct (serving s) eqn:Hsv; [| done].
    pose proof (serving_not_closed s Hr Hsv). congruence. }
  split; [done |]. intros a s' Hs. apply step_cases in Hs as [_ Hs].
  destruct a as [d | c | | r | e].
  - by destruct Hs as (_ & _ & ->).
  - destruct Hs as (Hsv' & _). congruence.
  - destruct Hs as (_ & ->).
    destruct (after_listen_fields s InRead (listening_select (sys_world s)))
      as (-> & _). rewrite sys_world_after_listen.
    pose proof (keeps_written_listening_select (sys_world s)) as [= _ Hw].
    pose proof (keeps_flags_listening_select (sys_world s)) as [= _ Hcl].
    by rewrite Hw, Hcl.
  - destruct Hs as (_ & ->).
    destruct (after_listen_fields s AtSelect (listening_read r (sys_world s)))
      as (-> & _). rewrite sys_world_after_listen.
    pose proof (keeps_written_listening_read r (sys_world s)) as [= _ Hw].
    pose proof (keeps_flags_listening_read r (sys_world s)) as [= _ Hcl].
    by rewrite Hw, Hcl.
  - rewrite Hs. simpl.
    pose proof (keeps_flags_station e (sys_world s)) as [= _ Hcl].
    rewrite Hcl. split; [| done].
    unfold station_push. by destruct (chan_send _ _).
Qed.

End HubFacts.

(** ** The definitions at work *)

Lemma sample_start_reachable : reachable (RT := sample_runtime) sample_start.
Proof. apply reach_initial. unfold initial, sample_start. by repeat eexists. Qed.

Lemma after_reachable tr :
  is_Some (run (RT := sample_runtime) tr sample_start) →
  reachable (RT := sample_runtime) (after tr).
Proof.
  intros [s Hs]. unfold after. rewrite Hs. simpl.
  eapply run_reachable; [apply sample_start_reachable | done].
Qed.

(** The samples of the spec for the matcher. *)
Example verify_samples :
  verify "*" "anything" = true ∧ verify "foo" "foo" = true ∧
  verify "foo*" "foobar" = true ∧ verify "foo*" "bar" = false ∧
  verify "foo" "foobar" = false ∧ verify "a.*" "a.b" = true.
Proof. by vm_compute. Qed.

(** Subscribed to ["a.*"] and ["a.b"], the session answers an event on
    ["a.b"] with one response. *)
Lemma broadcast_at_most_once_witness :
  ∃ w', serve_iter (RT := sample_runtime) CaseBroadcast 7 overlapping
        = Done Continue w' ∧
        length (ch_buf (response (sess w'))) = 1.
Proof.
  destruct (broadcast_at_most_once (RT := sample_runtime) overlapping
              (sample_event "a.b") [] 7 eq_refl) as (_ & _ & Hone).
  eexists. split.
  - apply Hone.
    + vm_compute; reflexivity.
    + exists "a.b". split; [apply elem_of_dom; by eexists | vm_compute; reflexivity].
    + split; [vm_compute; reflexivity | simpl; lia].
  - vm_compute; reflexivity.
Defined.

(** Subscribing to ["a.b"] once more leaves the subscriptions as they are. *)
Lemma subscribe_unsubscribe_idempotent_witness :
  subscriptions
    (sess (final (subscribe (RT := sample_runtime) (Some (json1 "a.b"))
                    overlapping)))
  = subscriptions (sess overlapping).
Proof.
  destruct (subscribe_unsubscribe_idempotent (RT := sample_runtime)
              overlapping (json1 "a.b") ["a.b"] eq_refl)
    as (_ & _ & Hsame & _).
  apply Hsame. intros s Hs. apply list_elem_of_singleton in Hs as ->.
  vm_compute; reflexivity.
Defined.





(** The first PING of the sample session makes it ready. *)
Lemma ready_only_by_ping_witness :
  ready (sess (sys_world (after [ListenSelect; ListenRead (inr ping_request)])))
  = false ∧
  ready (sess (sys_world (after [ListenSelect; ListenRead (inr ping_request);
                                 Serve CaseRequest]))) = true.
Proof.
  split; [by vm_compute |].
  destruct (ready_only_by_ping (RT := sample_runtime)) as (_ & _ & Hping).
  refine (proj1 (Hping (after [ListenSelect; ListenRead (inr ping_request)])
                   _ _ _ _)).
  - apply after_reachable. eexists. vm_compute. reflexivity.
  - split; [by vm_compute |]. exists ping_request. by split.
  - vm_compute; reflexivity.
Defined.

(** With nothing to take from its queues, the sample session is not ready
    11ns after its handshake, and still open. *)
Lemma heartbeat_soft_timeout_witness :
  ready (sess (sys_world (after (handshake ++ idle)))) = false ∧
  torn (sys_world (after (handshake ++ idle)))
  = torn (sys_world (after handshake)) ∧
  serving (after (handshake ++ idle)) = true.
Proof.
  destruct (heartbeat_soft_timeout (RT := sample_runtime)) as (_ & _ & Hlate).
  apply (Hlate idle (after handshake)).
  - vm_compute; reflexivity.
  - unfold quiet, idle. repeat constructor; intros c [= <-]; vm_compute; reflexivity.
  - vm_compute; reflexivity.
  - by vm_compute.
  - by vm_compute.
Defined.

(** The claim of C5 as it is worded fails: 12ns after the PING of the
    handshake, with a heartbeat of 10ns and no PING handled since, the
    session that handled a SUBSCRIBE request at 6ns is still ready. *)
Lemma heartbeat_counterexample :
  reachable (RT := sample_runtime) (after handshake) ∧
  run (RT := sample_runtime) busy (after handshake)
  = Some (after (handshake ++ busy)) ∧
  ping_free (RT := sample_runtime) busy (after handshake) = true ∧
  serving (after handshake) = true ∧
  (clock (after handshake)
   ≤ armed (after handshake) + heartbeat (sess (sys_world (after handshake))))%Z ∧
  (armed (after handshake) + heartbeat (sess (sys_world (after handshake)))
   < clock (after (handshake ++ busy)))%Z ∧
  ready (sess (sys_world (after (handshake ++ busy)))) = true.
Proof.
  split; [apply after_reachable; eexists; vm_compute; reflexivity |].
  split; [vm_compute; reflexivity |].
  split; [vm_compute; reflexivity |].
  split; [vm_compute; reflexivity |].
  split; [by vm_compute |].
  split; [by vm_compute | vm_compute; reflexivity].
Qed.

(** The claim of C9 as it is worded fails: when the generator yields an id
    that is registered, [createSession] returns that live id and the registry
    stays as it was. *)
Lemma createSession_counterexample :
  verifySession (createSession sample_id (<[sample_id := tt]> ∅)).1
    (<[sample_id := tt]> ∅) = true ∧
  (createSession sample_id (<[sample_id := tt]> ∅)).2 = <[sample_id := tt]> ∅.
Proof.
  split; [by vm_compute |]. unfold createSession. simpl.
  apply insert_insert_eq.
Qed.

(** After the teardown of the sample session it is closed, and not ready. *)
Lemma closed_implies_not_ready_witness :
  closed (sess (sys_world (after (handshake ++ disconnecting)))) = true ∧
  ready (sess (sys_world (after (handshake ++ disconnecting)))) = false.
Proof.
  split; [by vm_compute |].
  destruct (closed_implies_not_ready (RT := sample_runtime)) as (Hinv & _).
  apply Hinv; [| vm_compute; reflexivity].
  apply after_reachable. eexists. vm_compute. reflexivity.
Defined.

(** C3: [close] is called twice, by [serve] for the DISCONNECT request and
    by the listener whose read ended.  The teardown has run in between, once:
    the id is deregistered and the [closing] channel closed; the second
    [close] sends on that closed channel and the program panics. *)
Theorem close_after_teardown_panics :
  run (RT := sample_runtime) (handshake ++ disconnecting) sample_start
  = Some (after (handshake ++ disconnecting)) ∧
  crashed (after (handshake ++ disconnecting)) = false ∧
  once (sess (sys_world (after (handshake ++ disconnecting)))) = true ∧
  verifySession sample_id (store (sys_world (after (handshake ++ disconnecting))))
  = false ∧
  listener (after (handshake ++ disconnecting)) = InRead ∧
  close (sys_world (after (handshake ++ disconnecting)))
  = Panic SendOnClosedChannel (sys_world (after (handshake ++ disconnecting))) ∧
  step (RT := sample_runtime) (ListenRead (inl (CloseError CloseNormalClosure
         "websocket: close 1000"))) (after (handshake ++ disconnecting))
  = Some (after (handshake ++ disconnecting ++ second_close)) ∧
  crashed (after (handshake ++ disconnecting ++ second_close)) = true.
Proof. by vm_compute. Qed.

(** ** The further facts at work *)

(** The listener of the sample session takes the closing signal that
    [serve] sent for the DISCONNECT request. *)
Lemma listener_takes_closing_signal_witness :
  ∃ s', step (RT := sample_runtime) ListenSelect (after signalled_at_select)
        = Some s' ∧
        listener s' = ListenerGone ∧
        case_ready CaseClosing s' = false.
Proof.
  destruct (listener_takes_closing_signal (RT := sample_runtime)
              (after signalled_at_select))
    as (s' & Hs & Hl & Hc & _); try (vm_compute; reflexivity).
  exists s'. split; [exact Hs |]. split; [exact Hl | exact Hc].
Defined.

(** Params that are no JSON array make SUBSCRIBE answer with the decoding
    error and signal the closing. *)
Lemma decode_failure_closes_witness :
  ∃ w', subscribe (RT := sample_runtime) (Some "oops") (sys_world (after handshake))
        = Done tt w' ∧
        ch_buf (closing (sess w')) = [()] ∧
        subscriptions (sess w') = subscriptions (sess (sys_world (after handshake))).
Proof.
  destruct (decode_failure_closes (RT := sample_runtime)
              (sys_world (after handshake)) "oops" _ eq_refl)
    as (_ & _ & _ & _ & Hrun).
  destruct Hrun as [Hsub _].
  - split; [vm_compute; reflexivity | vm_compute; lia].
  - split; [vm_compute; reflexivity | vm_compute; lia].
  - eexists. split; [exact Hsub |]. split; vm_compute; reflexivity.
Defined.

(** Method 7 is answered with an error that names it. *)
Lemma unknown_method_reply_witness :
  ∃ w', serve_iter (RT := sample_runtime) CaseRequest 3 (with_request odd_request)
        = Done Continue w' ∧
        resp_Message <$> ch_buf (response (sess w')) = ["invalid method: 7"].
Proof.
  eexists. split.
  - apply (unknown_method_reply (RT := sample_runtime)
             (with_request odd_request) odd_request []);
      try (vm_compute; reflexivity); try (by vm_compute).
    split; [vm_compute; reflexivity | vm_compute; lia].
  - vm_compute. reflexivity.
Defined.

(** The teardown of the sample session after its handshake. *)
Lemma disconnect_tears_down_witness :
  ∃ w', disconnect (sys_world (after handshake)) = Done tt w' ∧
        closed (sess w') = true ∧ tr_closed (wire w') = true ∧
        verifySession sample_id (store w') = false.
Proof.
  destruct (disconnect_tears_down (sys_world (after handshake)))
    as (w' & Hd & _ & Hc & _ & Hst & _ & _ & _ & _ & _ & _ & Htr & _);
    try (vm_compute; reflexivity).
  exists w'. split; [exact Hd |]. split; [exact Hc |]. split.
  - rewrite Htr. vm_compute. reflexivity.
  - rewrite Hst. vm_compute. reflexivity.
Defined.

(** A second [disconnect] on the torn-down sample session does nothing. *)
Lemma disconnect_idempotent_witness :
  disconnect (final (disconnect (sys_world (after handshake))))
  = Done tt (final (disconnect (sys_world (after handshake)))).
Proof.
  apply (disconnect_idempotent (sys_world (after handshake))).
  vm_compute. reflexivity.
Defined.

(** [serve] returns from the turn that takes the closing signal of the
    sample session, which is closed then. *)
Lemma serve_returns_only_on_closing_witness :
  closed (sess (sys_world (after (handshake ++ disconnecting)))) = true ∧
  ready (sess (sys_world (after (handshake ++ disconnecting)))) = false ∧
  verifySession sample_id (store (sys_world (after (handshake ++ disconnecting))))
  = false.
Proof.
  refine (proj2 (serve_returns_only_on_closing (RT := sample_runtime)
                   CaseClosing 0 (sys_world (after signalled_in_read))
                   (sys_world (after (handshake ++ disconnecting))) _) _).
  - vm_compute. reflexivity.
  - vm_compute. reflexivity.
Defined.

(** Subscribing the sample session to ["x.y"] and unsubscribing it again
    restores its two subscriptions. *)
Lemma subscribe_then_unsubscribe_witness :
  subscriptions
    (sess (final (unsubscribe (RT := sample_runtime) (Some (json1 "x.y"))
                    (final (subscribe (RT := sample_runtime)
                              (Some (json1 "x.y")) overlapping)))))
  = subscriptions (sess overlapping).
Proof.
  destruct (subscribe_then_unsubscribe (RT := sample_runtime) overlapping
              (json1 "x.y") ["x.y"] eq_refl) as (_ & _ & _ & Hback).
  apply Hback. intros s Hs. apply list_elem_of_singleton in Hs as ->.
  apply not_elem_of_dom. vm_compute. reflexivity.
Defined.

(** With an unbuffered outbound queue the first PING parks [serve]. *)
Lemma ping_parks_on_full_queue_witness :
  ∃ w', serve_iter (RT := sample_runtime) CaseRequest 0 unbuffered = Parked w' ∧
        ready (sess w') = true ∧ ch_buf (response (sess w')) = [].
Proof.
  eexists. split.
  - apply (ping_parks_on_full_queue (RT := sample_runtime) unbuffered
             ping_request []); vm_compute; first [reflexivity | lia].
  - split; vm_compute; reflexivity.
Defined.

(** The DISCONNECT request of the sample session, served in two turns. *)
Lemma disconnect_request_two_turns_witness :
  ∃ w1 w2,
    serve_iter (RT := sample_runtime) CaseRequest 5
      (with_request disconnect_request) = Done Continue w1 ∧
    serve_iter (RT := sample_runtime) CaseClosing 6 w1 = Done Return w2 ∧
    closed (sess w2) = true.
Proof.
  destruct (disconnect_request_two_turns (RT := sample_runtime)
              (with_request disconnect_request) disconnect_request [] 5 6
              eq_refl eq_refl) as [_ Htwo].
  destruct Htwo as (Hone & w2 & Htwo & Hc & _); try (vm_compute; reflexivity).
  { split; [vm_compute; reflexivity | vm_compute; lia]. }
  eexists. exists w2. split; [exact Hone |]. split; [exact Htwo | exact Hc].
Defined.

(** The longest expiry is 86399 seconds. *)
Lemma RandomExpiry_range_witness :
  RandomExpiry 86399 = 86399000000000%Z.
Proof.
  destruct (RandomExpiry_range 86399) as [Heq _]; [lia |].
  rewrite Heq. reflexivity.
Defined.

(** The frame written in the handshake of the sample session carries its
    id. *)
Lemma frames_carry_session_id_witness :
  Forall (λ v, resp_ID v = sess_id (sess (sys_world (after handshake))))
    (tr_written (wire (sys_world (after handshake)))).
Proof.
  apply (proj2 (frames_carry_session_id (RT := sample_runtime))).
  apply after_reachable. eexists. vm_compute. reflexivity.
Defined.

(** Nothing is written by the listener of the torn-down sample session. *)
Lemma no_write_after_close_witness :
  serving (after (handshake ++ disconnecting)) = false ∧
  ∀ a s', step (RT := sample_runtime) a (after (handshake ++ disconnecting))
          = Some s' →
          tr_written (wire (sys_world s'))
          = tr_written (wire (sys_world (after (handshake ++ disconnecting)))).
Proof.
  destruct (no_write_after_close (RT := sample_runtime)
              (after (handshake ++ disconnecting))) as [Hsv Hstep].
  - apply after_reachable. eexists. vm_compute. reflexivity.
  - vm_compute. reflexivity.
  - split; [exact Hsv |]. intros a s' Hs.
    exact (proj1 (Hstep a s' Hs)).
Defined.
